(** * OpenTrade algo core ([src/opentrade/algo.h])

    A shallow embedding of the declarations of [algo.h]: the parameter model
    ([SecurityTuple], [ParamDef]), the strategy interface ([Algo]), the
    subscription handle ([Instrument]) and the registry ([AlgoManager]),
    followed by the properties established about them.

    Conventions.
    - [double] is IEEE 754 binary64: Rocq's primitive [float], whose operations
      are specified against [SpecFloat] by [FloatAxioms].
    - [uint32_t], [int32_t], [int64_t] and [size_t] are [Z]; arithmetic on a
      32-bit counter is written with its reduction modulo [2^32].
    - a pointer is an [option]: [None] is [nullptr], [Some x] points to [x].
    - [std::unordered_map] and the TBB concurrent maps are [gmap]s. *)

From Stdlib Require Import ZArith Lia List String Bool.
From Stdlib Require Import Floats.
From stdpp Require Import gmap.

Local Open Scope Z_scope.

(** ** Declarations the header includes but does not define

    [adapter.h], [market_data.h], [order.h], [position.h], [security.h] and
    [utility.h] are not part of the sources.  The types they declare are
    parameters of the development; the two identifier types are used as keys of
    hash maps, hence decidable equality and countability. *)
Class Externals := {
  DataSrc : Type;
  Security : Type;
  SubAccount : Type;
  OrderSide : Type;
  MarketData : Type;
  User : Type;
  DataSrc_IdType : Type;
  Security_IdType : Type;
  (** [DataSrc{}], the default data source *)
  DataSrc_default : DataSrc;
  (** [kBuy] *)
  kBuy : OrderSide;
  (** the identifier under which a data source, a security is keyed *)
  DataSrc_value : DataSrc -> DataSrc_IdType;
  Security_id : Security -> Security_IdType;
  DataSrc_IdType_eq :: EqDecision DataSrc_IdType;
  DataSrc_IdType_countable :: Countable DataSrc_IdType;
  Security_IdType_eq :: EqDecision Security_IdType;
  Security_IdType_countable :: Countable Security_IdType
}.

(** A concrete choice of the external types, used to evaluate the model. *)
Definition numeric_externals : Externals := {|
  DataSrc := Z; Security := Z; SubAccount := Z; OrderSide := bool;
  MarketData := Z; User := Z;
  DataSrc_IdType := Z; Security_IdType := Z;
  DataSrc_default := 0; kBuy := true;
  DataSrc_value := fun s => s; Security_id := fun s => s
|}.

(** ** Parameter model *)

Module SecurityTuple.
Section Def.
Context `{Externals}.

(** [struct SecurityTuple] *)
Record t := mk {
  src : DataSrc;
  sec : option Security;       (* const Security* sec = nullptr *)
  acc : option SubAccount;     (* const SubAccount* acc = nullptr *)
  side : OrderSide;            (* = kBuy *)
  qty : float                  (* = 0 *)
}.

Definition default : t :=
  {| src := DataSrc_default; sec := None; acc := None; side := kBuy; qty := 0%float |}.
End Def.
End SecurityTuple.

Module ParamDef.
Section Def.
Context `{Externals}.

(** [typedef std::variant<std::string, const char*, bool, int64_t, int32_t,
    double, SecurityTuple> ValueScalar;] one constructor per alternative, in
    the order of the template arguments. *)
Inductive ValueScalar :=
  | scalar_string (s : string)
  | scalar_cstr (p : option string)         (* const char*, possibly null *)
  | scalar_bool (b : bool)
  | scalar_int64 (n : Z)
  | scalar_int32 (n : Z)
  | scalar_double (d : float)
  | scalar_SecurityTuple (t : SecurityTuple.t).

Definition ValueVector := list ValueScalar.

(** [typedef std::variant<std::string, const char*, bool, int64_t, int32_t,
    double, SecurityTuple, ValueVector> Value;] *)
Inductive Value :=
  | value_string (s : string)
  | value_cstr (p : option string)
  | value_bool (b : bool)
  | value_int64 (n : Z)
  | value_int32 (n : Z)
  | value_double (d : float)
  | value_SecurityTuple (t : SecurityTuple.t)
  | value_ValueVector (v : ValueVector).

(** [struct ParamDef] *)
Record t := mk {
  name : string;
  default_value : Value;
  required : bool;             (* = false *)
  min_value : float;           (* = 0 *)
  max_value : float;           (* = 0 *)
  precision : Z                (* = 0 *)
}.

(** [std::variant::index()]: the position of the held alternative. *)
Definition ValueScalar_index (v : ValueScalar) : nat :=
  match v with
  | scalar_string _ => 0 | scalar_cstr _ => 1 | scalar_bool _ => 2
  | scalar_int64 _ => 3 | scalar_int32 _ => 4 | scalar_double _ => 5
  | scalar_SecurityTuple _ => 6
  end%nat.

Definition Value_index (v : Value) : nat :=
  match v with
  | value_string _ => 0 | value_cstr _ => 1 | value_bool _ => 2
  | value_int64 _ => 3 | value_int32 _ => 4 | value_double _ => 5
  | value_SecurityTuple _ => 6 | value_ValueVector _ => 7
  end%nat.

(** Every [ValueScalar] converts to the [Value] holding the same alternative. *)
Definition of_scalar (v : ValueScalar) : Value :=
  match v with
  | scalar_string s => value_string s
  | scalar_cstr p => value_cstr p
  | scalar_bool b => value_bool b
  | scalar_int64 n => value_int64 n
  | scalar_int32 n => value_int32 n
  | scalar_double d => value_double d
  | scalar_SecurityTuple t => value_SecurityTuple t
  end.

(** The C++ types that occur as alternatives. *)
Inductive Alternative :=
  | alt_std_string | alt_const_char_ptr | alt_bool | alt_int64_t | alt_int32_t
  | alt_double | alt_SecurityTuple | alt_ValueVector.

(** The template argument lists of the two typedefs. *)
Definition ValueScalar_alternatives : list Alternative :=
  [alt_std_string; alt_const_char_ptr; alt_bool; alt_int64_t; alt_int32_t;
   alt_double; alt_SecurityTuple].

Definition Value_alternatives : list Alternative :=
  ValueScalar_alternatives ++ [alt_ValueVector].

(** [std::holds_alternative]: the alternative a value holds. *)
Definition held (v : Value) : Alternative :=
  match v with
  | value_string _ => alt_std_string | value_cstr _ => alt_const_char_ptr
  | value_bool _ => alt_bool | value_int64 _ => alt_int64_t
  | value_int32 _ => alt_int32_t | value_double _ => alt_double
  | value_SecurityTuple _ => alt_SecurityTuple
  | value_ValueVector _ => alt_ValueVector
  end.

(** The seven shapes the specification lists for a parameter value: string,
    bool, int32, int64, double, security-tuple, list-of-scalar. *)
Definition spec_alternatives : list Alternative :=
  [alt_std_string; alt_bool; alt_int32_t; alt_int64_t; alt_double;
   alt_SecurityTuple; alt_ValueVector].
End Def.
End ParamDef.

(** [typedef std::vector<ParamDef> ParamDefs;] *)
Definition ParamDefs `{Externals} := list ParamDef.t.

(** [typedef std::unordered_map<std::string, ParamDef::Value> ParamMap;] *)
Definition ParamMap `{Externals} := gmap string ParamDef.Value.


(** ** Instrument *)

(** The result of dereferencing a pointer: the pointee, or the dereference of
    [nullptr]. *)
Inductive deref (A : Type) : Type :=
  | deref_ok (a : A)
  | deref_null.
Arguments deref_ok {A} a.
Arguments deref_null {A}.

Module Instrument.
Section Def.
Context `{Externals}.

(** [class Instrument]: the data members with their default member
    initialisers.  [algo_] names the owning algo by its id, [active_orders_]
    holds the addresses of the orders, [kIdCounter] is the static counter
    ([AlgoManager.World] below carries it). *)
Record t := mk {
  algo_ : option Z;              (* Algo* algo_ = nullptr *)
  sec_ : Security;               (* const Security& sec_ *)
  md_ : option MarketData;       (* const MarketData* md_ = nullptr *)
  src_ : DataSrc;                (* const DataSrc src_ *)
  active_orders_ : gset Z;       (* std::set<Order*> *)
  bought_qty_ : float;           (* = 0 *)
  sold_qty_ : float;             (* = 0 *)
  outstanding_buy_qty_ : float;  (* = 0 *)
  outstanding_sell_qty_ : float; (* = 0 *)
  id_ : Z                        (* size_t id_ = 0 *)
}.

(** [Instrument(Algo* algo, const Security& sec, DataSrc src)
      : algo_(algo), sec_(sec), src_(src) {}] *)
Definition new (algo : option Z) (sec : Security) (src : DataSrc) : t :=
  {| algo_ := algo; sec_ := sec; md_ := None; src_ := src;
     active_orders_ := ∅;
     bought_qty_ := 0%float; sold_qty_ := 0%float;
     outstanding_buy_qty_ := 0%float; outstanding_sell_qty_ := 0%float;
     id_ := 0 |}.

(** [Algo& algo() { return *algo_; }] *)
Definition algo (i : t) : deref Z :=
  match algo_ i with Some a => deref_ok a | None => deref_null end.

Definition sec (i : t) : Security := sec_ i.
Definition src (i : t) : DataSrc := src_ i.

(** [const MarketData& md() const { return *md_; }] *)
Definition md (i : t) : deref MarketData :=
  match md_ i with Some d => deref_ok d | None => deref_null end.

Definition active_orders (i : t) : gset Z := active_orders_ i.
Definition bought_qty (i : t) : float := bought_qty_ i.
Definition sold_qty (i : t) : float := sold_qty_ i.
Definition outstanding_buy_qty (i : t) : float := outstanding_buy_qty_ i.
Definition outstanding_sell_qty (i : t) : float := outstanding_sell_qty_ i.

(** [double net_qty() const { return bought_qty_ - sold_qty_; }] *)
Definition net_qty (i : t) : float := (bought_qty_ i - sold_qty_ i)%float.

(** [double total_qty() const { return bought_qty_ + sold_qty_; }] *)
Definition total_qty (i : t) : float := (bought_qty_ i + sold_qty_ i)%float.

(** [double net_outstanding_qty() const] *)
Definition net_outstanding_qty (i : t) : float :=
  (outstanding_buy_qty_ i - outstanding_sell_qty_ i)%float.

(** [double total_outstanding_qty() const] *)
Definition total_outstanding_qty (i : t) : float :=
  (outstanding_buy_qty_ i + outstanding_sell_qty_ i)%float.

(** [double total_exposure() const
      { return total_qty() + total_outstanding_qty(); }] *)
Definition total_exposure (i : t) : float :=
  (total_qty i + total_outstanding_qty i)%float.

Definition id (i : t) : Z := id_ i.

(** The pair under which the subscription of an instrument is counted. *)
Definition key (i : t) : DataSrc_IdType * Security_IdType :=
  (DataSrc_value (src_ i), Security_id (sec_ i)).

(** [0 <= x] and [x < infinity], as C++ evaluates them on a [double]: [x] is
    none of NaN, a negative number, an infinity. *)
Definition finite_nonneg (x : float) : bool :=
  (0 <=? x)%float && (x <? infinity)%float.

(** [0 <= x] alone: [x] is not NaN and not negative; [+infinity] passes. *)
Definition nonnegative (x : float) : bool := (0 <=? x)%float.
End Def.
End Instrument.

(** ** Algo *)

Module Algo.






Section Exceptions.
Context {exception : Type}.




End Exceptions.

Section Def.
Context `{Externals}.

(** The data members of [class Algo] with their default member initialisers;
    [instruments_] holds the instruments the algo owns (each element of the
    [std::set<Instrument*>] is a distinct object). *)
Record t := mk {
  user_ : option User;           (* const User* user_ = nullptr *)
  is_active_ : bool;             (* = true *)
  id_ : Z;                       (* IdType id_ = 0 *)
  token_ : string;
  instruments_ : list Instrument.t
}.

Definition init : t :=
  {| user_ := None; is_active_ := true; id_ := 0; token_ := EmptyString;
     instruments_ := [] |}.

Definition is_active (a : t) : bool := is_active_ a.
Definition id (a : t) : Z := id_ a.
Definition token (a : t) : string := token_ a.

End Def.
End Algo.

(** ** AlgoManager *)

Module AlgoManager.
Section Def.
Context `{Externals}.

(** [std::pair<DataSrc::IdType, Security::IdType>] *)
Definition Key : Type := DataSrc_IdType * Security_IdType.

(** The number of values of a [uint32_t], of a [size_t]. *)
Definition uint32_modulus : Z := 4294967296.
Definition size_t_modulus : Z := 18446744073709551616.

(** [m[k]] on a [tbb::concurrent_unordered_map<Key, tbb::atomic<uint32_t>>],
    here a [gmap Key Z]: the counter stored under [k]; when there is none,
    [operator[]] first inserts a value-initialised counter, which is zero.  The
    result is the counter read and the map as the access leaves it. *)
Definition at_key (m : gmap Key Z) (k : Key) : Z * gmap Key Z :=
  match m !! k with
  | Some v => (v, m)
  | None => (0, <[k := 0]> m)
  end.

(** The count recorded for a pair, a pair without an entry counting as zero. *)
Definition ref_count (m : gmap Key Z) (k : Key) : Z := default 0 (m !! k).

(** The data members of [class AlgoManager] that hold the registry; the
    runners, threads, io service, strands and output stream are run-time
    resources and are left out.  An [Algo*] in a map is the algo it points to
    ([algos_]) or its id ([algo_of_token_]). *)
Record t := mk {
  algo_id_counter_ : Z;            (* std::atomic<Algo::IdType> = 0 *)
  algos_ : gmap Z Algo.t;
  algo_of_token_ : gmap string Z;
  md_refs_ : gmap Key Z;
  seq_counter_ : Z                 (* uint32_t seq_counter_ = 0 *)
}.

Definition init : t :=
  {| algo_id_counter_ := 0; algos_ := ∅; algo_of_token_ := ∅; md_refs_ := ∅;
     seq_counter_ := 0 |}.

Definition with_md_refs (am : t) (m : gmap Key Z) : t :=
  {| algo_id_counter_ := algo_id_counter_ am; algos_ := algos_ am;
     algo_of_token_ := algo_of_token_ am; md_refs_ := m;
     seq_counter_ := seq_counter_ am |}.

Definition with_algos (am : t) (algos : gmap Z Algo.t) (tokens : gmap string Z) : t :=
  {| algo_id_counter_ := algo_id_counter_ am; algos_ := algos;
     algo_of_token_ := tokens; md_refs_ := md_refs_ am;
     seq_counter_ := seq_counter_ am |}.

(** [bool IsSubscribed(DataSrc::IdType src, Security::IdType id)
      { return md_refs_[std::make_pair(src, id)] > 0; }]
    The member function is not [const]: the result comes with the manager as
    the call leaves it. *)
Definition IsSubscribed (am : t) (src : DataSrc_IdType) (id : Security_IdType)
  : bool * t :=
  let '(v, m) := at_key (md_refs_ am) (src, id) in
  (v >? 0, with_md_refs am m).

(** *** Subscribing and stopping

    [Algo::Subscribe], [AlgoManager::Register] and the [Stop] functions are
    declared in the header and defined in [algo.cc], which is not part of the
    sources. *)

(** [++m[k]] and [--m[k]] on a [tbb::atomic<uint32_t>]. *)
Definition increment (m : gmap Key Z) (k : Key) : gmap Key Z :=
  let '(v, m') := at_key m k in <[k := (v + 1) mod uint32_modulus]> m'.

Definition decrement (m : gmap Key Z) (k : Key) : gmap Key Z :=
  let '(v, m') := at_key m k in <[k := (v - 1) mod uint32_modulus]> m'.

(** Modelled from the spec: the body of [AlgoManager::Register], which is
    missing.  "An Instrument is created by Subscribe (incrementing the relevant
    ref-count ...)": registering an instrument increments the count of its
    (source, security) pair. *)
Definition Register (am : t) (inst : Instrument.t) : t :=
  with_md_refs am (increment (md_refs_ am) (Instrument.key inst)).

(** The manager together with the static counter [Instrument::kIdCounter]. *)
Record World := {
  manager : t;
  kIdCounter : Z
}.

Definition with_id (i : Instrument.t) (n : Z) : Instrument.t :=
  {| Instrument.algo_ := Instrument.algo_ i; Instrument.sec_ := Instrument.sec_ i;
     Instrument.md_ := Instrument.md_ i; Instrument.src_ := Instrument.src_ i;
     Instrument.active_orders_ := Instrument.active_orders_ i;
     Instrument.bought_qty_ := Instrument.bought_qty_ i;
     Instrument.sold_qty_ := Instrument.sold_qty_ i;
     Instrument.outstanding_buy_qty_ := Instrument.outstanding_buy_qty_ i;
     Instrument.outstanding_sell_qty_ := Instrument.outstanding_sell_qty_ i;
     Instrument.id_ := n |}.

Definition add_instrument (a : Algo.t) (i : Instrument.t) : Algo.t :=
  {| Algo.user_ := Algo.user_ a; Algo.is_active_ := Algo.is_active_ a;
     Algo.id_ := Algo.id_ a; Algo.token_ := Algo.token_ a;
     Algo.instruments_ := i :: Algo.instruments_ a |}.

(** The pair a subscription to security [sec] on source [src] names. *)
Definition pair_of (sec : Security) (src : DataSrc) : Key :=
  (DataSrc_value src, Security_id sec).

(** The instrument of a list that is subscribed to [k], if there is one. *)
Definition find_instrument (k : Key) (l : list Instrument.t) : option Instrument.t :=
  List.find (fun i => bool_decide (Instrument.key i = k)) l.

(** Modelled from the spec: the body of [Algo::Subscribe], which is missing.
    "Subscribe(security, source) returns a new or existing Instrument for that
    (security, source) pair scoped to this algo and registers it with the
    manager".  When the algo owns an instrument on the pair, that instrument
    is returned and nothing changes: the count of a pair "equals the number of
    live Instruments subscribed to it".  Otherwise "an Instrument is created
    by Subscribe (incrementing the relevant ref-count ...)": it gets its id
    from the process-wide counter, is registered with the manager and is owned
    by the algo.  A call on an id that names no registered algo has no object
    to act on and does nothing. *)
Definition Subscribe (w : World) (a : Z) (sec : Security) (src : DataSrc)
  : option Instrument.t * World :=
  match algos_ (manager w) !! a with
  | None => (None, w)
  | Some algo =>
      match find_instrument (pair_of sec src) (Algo.instruments_ algo) with
      | Some inst => (Some inst, w)
      | None =>
          let n := (kIdCounter w + 1) mod size_t_modulus in
          let inst := with_id (Instrument.new (Some a) sec src) n in
          let am := Register (manager w) inst in
          (Some inst,
           {| manager := with_algos am (<[a := add_instrument algo inst]> (algos_ am))
                                    (algo_of_token_ am);
              kIdCounter := n |})
      end
  end.

(** Modelled from the spec: what stopping an algo does to the registry, the
    bodies of the [Stop] functions being missing.  An algo is "destroyed
    (unregistered, all Instruments released, all subscription ref-counts
    decremented) when stopped": the count of the pair of each of its
    instruments is decremented. *)
Definition StopAlgo (w : World) (a : Z) : World :=
  match algos_ (manager w) !! a with
  | None => w
  | Some algo =>
      let ks := List.map Instrument.key (Algo.instruments_ algo) in
      let am := manager w in
      {| manager :=
           with_algos (with_md_refs am (List.fold_left decrement ks (md_refs_ am)))
                      (delete a (algos_ am))
                      (delete (Algo.token_ algo) (algo_of_token_ am));
         kIdCounter := kIdCounter w |}
  end.

(** The operations of a run. *)
Inductive Op :=
  | OpSubscribe (a : Z) (sec : Security) (src : DataSrc)
  | OpStop (a : Z).

Definition step (w : World) (op : Op) : World :=
  match op with
  | OpSubscribe a sec src => snd (Subscribe w a sec src)
  | OpStop a => StopAlgo w a
  end.

Definition run (ops : list Op) (w : World) : World := List.fold_left step ops w.

(** The world in which the algos with the given ids have been spawned: they
    own no instrument and no count is recorded. *)
Definition spawned (ids : list Z) : World :=
  {| manager :=
       with_algos init
         (List.fold_right
            (fun a m => <[a := Algo.mk None true a EmptyString []]> m) ∅ ids)
         ∅;
     kIdCounter := 0 |}.

(** The instruments of a list that are subscribed to [k]. *)
Definition on_key (k : Key) (l : list Instrument.t) : Z :=
  Z.of_nat (length (List.filter (fun i => bool_decide (Instrument.key i = k)) l)).

(** The instruments subscribed to [k] that the algos of a registry own. *)
Definition instruments_on (k : Key) (algos : gmap Z Algo.t) : Z :=
  map_fold (fun _ algo n => n + on_key k (Algo.instruments_ algo)) 0 algos.

(** The live instruments subscribed to [k], across all algos. *)
Definition live (w : World) (k : Key) : Z :=
  instruments_on k (algos_ (manager w)).

(** *** The operations on a pair, counted on the list of operations

    The [N] subscribe and [M] unsubscribe operations on a pair are read off
    the list of operations alone, without a manager, an instrument or a
    count.  An operation is judged against the operations made [earlier]. *)



Definition is_stop_of (a : Z) (op : Op) : bool :=
  match op with
  | OpSubscribe _ _ _ => false
  | OpStop b => bool_decide (b = a)
  end.

Definition is_subscribe_of (a : Z) (k : Key) (op : Op) : bool :=
  match op with
  | OpSubscribe b sec src => bool_decide (b = a) && bool_decide (pair_of sec src = k)
  | OpStop _ => false
  end.

(** The algo [a] is registered: it is one of the algos spawned, [ids], and
    was not stopped. *)
Definition registered (ids : list Z) (earlier : list Op) (a : Z) : bool :=
  bool_decide (a ∈ ids) && negb (List.existsb (is_stop_of a) earlier).

(** The algo [a] called [Subscribe] on the pair [k]. *)
Definition subscribed (earlier : list Op) (a : Z) (k : Key) : bool :=
  List.existsb (is_subscribe_of a k) earlier.

(** A [Subscribe] on [k] adds a subscriber to [k] when the algo is registered
    and did not subscribe to [k] before: a later call returns the existing
    instrument. *)
Definition adds_subscriber (ids : list Z) (k : Key) (earlier : list Op) (op : Op) : bool :=
  match op with
  | OpSubscribe a sec src =>
      bool_decide (pair_of sec src = k) && registered ids earlier a
      && negb (subscribed earlier a k)
  | OpStop _ => false
  end.

(** The stop of an algo removes a subscriber from [k] when the algo is
    registered and subscribed to [k]. *)
Definition removes_subscriber (ids : list Z) (k : Key) (earlier : list Op) (op : Op) : bool :=
  match op with
  | OpSubscribe _ _ _ => false
  | OpStop a => registered ids earlier a && subscribed earlier a k
  end.

(** The operations of a list, latest first, that [f] selects; [f] is given
    the operations made earlier. *)
Fixpoint count_selected (f : list Op -> Op -> bool) (latest_first : list Op) : Z :=
  match latest_first with
  | [] => 0
  | op :: earlier => (if f earlier op then 1 else 0) + count_selected f earlier
  end.

(** [N]: the subscribers added to [k], and [M]: the subscribers removed from
    [k], by the operations [ops] on the algos [ids]. *)
Definition subscribers_added (ids : list Z) (k : Key) (ops : list Op) : Z :=
  count_selected (adds_subscriber ids k) (List.rev ops).

Definition subscribers_removed (ids : list Z) (k : Key) (ops : list Op) : Z :=
  count_selected (removes_subscriber ids k) (List.rev ops).


End Def.
End AlgoManager.

(** ** Concrete values used to evaluate the model *)

(** An instrument whose bought and sold quantities are both [+infinity]. *)
Definition unbounded_position : @Instrument.t numeric_externals :=
  @Instrument.mk numeric_externals None 0 None 0 ∅
    infinity infinity 0%float 0%float 1.


(** An instrument that bought 300, sold 120.5 and has 40 to buy and 75.25 to
    sell outstanding, with a cached market-data snapshot. *)
Definition filled_position : @Instrument.t numeric_externals :=
  @Instrument.mk numeric_externals (Some 1) 7 (Some 42) 0 ∅
    300%float 120.5%float 40%float 75.25%float 2.

(** Two algos subscribe to security 7 on source 0, the first one also to
    security 8; then the first algo is stopped. *)
Definition sample_ops : list (@AlgoManager.Op numeric_externals) :=
  [@AlgoManager.OpSubscribe numeric_externals 1 7 0;
   @AlgoManager.OpSubscribe numeric_externals 2 7 0;
   @AlgoManager.OpSubscribe numeric_externals 1 8 0;
   @AlgoManager.OpStop numeric_externals 1].


(** Security 7 on source 0, security 8 on source 0. *)
Definition pair_0_7 : @AlgoManager.Key numeric_externals := (0, 7).
Definition pair_0_8 : @AlgoManager.Key numeric_externals := (0, 8).


(** ** Auxiliary definitions: rounding in binary64

    [SpecFloat] computes a sum by aligning the two mantissas, adding them as
    integers and rounding the result ([binary_normalize]).  The definitions
    below describe that rounding arithmetically. *)

(** [M / P] rounded to the nearest integer, ties to even. *)
Definition rne_div (M P : Z) : Z :=
  let q := M / P in
  match 2 * (M mod P) ?= P with
  | Lt => q
  | Eq => if Z.even q then q else q + 1
  | Gt => q + 1
  end.

(** [M / 2^n] rounded to the nearest integer, ties to even. *)
Definition rne (M n : Z) : Z := rne_div M (2 ^ n).

(** The record [mrs] is [M] shifted right by [n] bits: the quotient with the
    round bit and the sticky bit. *)
Definition shr_inv (M n : Z) (mrs : shr_record) : Prop :=
  shr_m mrs = M / 2 ^ n /\
  (shr_r mrs = true <-> 2 ^ n <= 2 * (M mod 2 ^ n)) /\
  (shr_s mrs = true <-> M mod 2 ^ n <> 0 /\ 2 * (M mod 2 ^ n) <> 2 ^ n).

(** The mantissa and exponent [binary_round] gives the positive number
    [m * 2^e]. *)
Definition rnd_core (m : positive) (e : Z) : Z * Z :=
  let t := fexp prec emax (Zpos (digits2_pos m) + e) in
  let M := if t <? e then Zpos m * 2 ^ (e - t) else rne (Zpos m) (t - e) in
  if M =? 2 ^ prec then (2 ^ (prec - 1), t + 1) else (M, t).

(** The float with sign [s], mantissa [fst ME] and exponent [snd ME]; an
    exponent beyond the largest one is an overflow. *)
Definition mk_float (s : bool) (ME : Z * Z) : spec_float :=
  match fst ME with
  | Z0 => S754_zero s
  | Zpos p => if snd ME <=? emax - prec then S754_finite s p (snd ME) else S754_infinity s
  | Zneg _ => S754_nan
  end.

(** The order of two results of [rnd_core]. *)
Definition le_core (p1 p2 : Z * Z) : Prop :=
  0 <= fst p1 /\ 0 <= fst p2 /\
  (fst p1 = 0 \/ (0 < fst p2 /\ (snd p1 < snd p2 \/ (snd p1 = snd p2 /\ fst p1 <= fst p2)))).

(** [|x| <= y] as IEEE 754 compares. *)
Definition ale (x y : spec_float) : Prop := SFleb (SFabs x) y = true.

(** [0 <= x] as IEEE 754 compares. *)
Definition nonneg (x : spec_float) : Prop := SFleb (S754_zero false) x = true.

(** Zero or a finite number. *)
Definition is_fin (x : spec_float) : bool :=
  match x with S754_zero _ | S754_finite _ _ _ => true | _ => false end.

(** [x] with the sign of a zero forgotten. *)
Definition nz (x : spec_float) : spec_float :=
  match x with S754_zero _ => S754_zero false | _ => x end.

(** The signed mantissa and the exponent of a finite number. *)
Definition fmant (x : spec_float) : Z :=
  match x with S754_finite s m _ => cond_Zopp s (Zpos m) | _ => 0 end.

Definition fexpo (x : spec_float) : Z :=
  match x with S754_finite _ _ e => e | _ => 0 end.

(** The integer [n] with [x = n * 2^c], for [c] at most the exponent of [x]. *)
Definition scaled (x : spec_float) (c : Z) : Z := fmant x * 2 ^ (fexpo x - c).

Definition min4 (a b c d : Z) : Z := Z.min (Z.min a b) (Z.min c d).

Ltac unfold_fexp := unfold fexp, SpecFloat.emin, prec, emax in *.

(** [filled_position] with the buy and the sell side exchanged. *)
Definition mirrored_position : @Instrument.t numeric_externals :=
  @Instrument.mk numeric_externals (Some 1) 7 (Some 42) 0 ∅
    120.5%float 300%float 75.25%float 40%float 3.

(** [filled_position] after a further fill of 10 on the buy side and with 5
    more to sell outstanding. *)
Definition larger_position : @Instrument.t numeric_externals :=
  @Instrument.mk numeric_externals (Some 1) 7 (Some 42) 0 ∅
    310%float 120.5%float 40%float 80.25%float 2.

(** ** Predicates on doubles used in the statements *)

(** [std::isfinite(x)]: [x] is neither NaN nor an infinity. *)
Definition isfinite (x : float) : bool := (abs x <? infinity)%float.

(** * Properties *)

(** ** Rounding in binary64

    The sum of two floats is the rounding of the sum of their aligned
    mantissas, and that rounding is monotone.  These facts carry the bound on
    [Instrument.total_exposure] further down. *)

(** *** Number of binary digits *)
Lemma digits2_pos_bounds (m : positive) :
  2 ^ (Zpos (digits2_pos m) - 1) <= Zpos m < 2 ^ Zpos (digits2_pos m).
Proof.
  induction m as [p IH | p IH |]; cbn [digits2_pos].
  - rewrite Pos2Z.inj_succ. replace (Z.succ (Zpos (digits2_pos p)) - 1) with (Zpos (digits2_pos p)) by lia.
    rewrite Z.pow_succ_r by lia.
    replace (2 ^ Zpos (digits2_pos p)) with (2 * 2 ^ (Zpos (digits2_pos p) - 1)) in * 
      by (rewrite <- Z.pow_succ_r by lia; f_equal; lia).
    lia.
  - rewrite Pos2Z.inj_succ. replace (Z.succ (Zpos (digits2_pos p)) - 1) with (Zpos (digits2_pos p)) by lia.
    rewrite Z.pow_succ_r by lia.
    replace (2 ^ Zpos (digits2_pos p)) with (2 * 2 ^ (Zpos (digits2_pos p) - 1)) in * 
      by (rewrite <- Z.pow_succ_r by lia; f_equal; lia).
    lia.
  - cbn. lia.
Qed.

Lemma digits2_pos_unique (m : positive) (k : Z) :
  2 ^ (k - 1) <= Zpos m < 2 ^ k -> Zpos (digits2_pos m) = k.
Proof.
  intros [Hlo Hhi]. pose proof (digits2_pos_bounds m) as [Dlo Dhi].
  assert (Hk : 0 < k).
  { destruct (Z_lt_le_dec 0 k) as [|Hk]; [assumption|].
    assert (2 ^ k <= 2 ^ 0) by (apply Z.pow_le_mono_r; lia). 
    change (2 ^ 0) with 1 in *. lia. }
  destruct (Z_lt_le_dec (Zpos (digits2_pos m)) k) as [Hlt|Hge].
  - assert (2 ^ Zpos (digits2_pos m) <= 2 ^ (k - 1)) by (apply Z.pow_le_mono_r; lia). lia.
  - destruct (Z_lt_le_dec k (Zpos (digits2_pos m))) as [Hlt|Hle]; [|lia].
    assert (2 ^ k <= 2 ^ (Zpos (digits2_pos m) - 1)) by (apply Z.pow_le_mono_r; lia). lia.
Qed.

Lemma digits2_pos_mono (m1 m2 : positive) :
  (m1 <= m2)%positive -> Zpos (digits2_pos m1) <= Zpos (digits2_pos m2).
Proof.
  intros H. pose proof (digits2_pos_bounds m1) as [L1 H1].
  pose proof (digits2_pos_bounds m2) as [L2 H2].
  destruct (Z_lt_le_dec (Zpos (digits2_pos m2)) (Zpos (digits2_pos m1))) as [Hlt|]; [|assumption].
  assert (2 ^ Zpos (digits2_pos m2) <= 2 ^ (Zpos (digits2_pos m1) - 1)) by (apply Z.pow_le_mono_r; lia).
  lia.
Qed.

Lemma pos_iter_xO (m d : positive) : Zpos (Pos.iter xO m d) = Zpos m * 2 ^ Zpos d.
Proof.
  induction d as [|d IH] using Pos.peano_ind.
  - cbn. lia.
  - rewrite Pos.iter_succ, Pos2Z.inj_succ, Z.pow_succ_r by lia.
    rewrite Pos2Z.inj_xO, IH. lia.
Qed.

Lemma digits2_pos_shift (m : positive) (k : Z) (p : positive) :
  0 <= k -> Zpos p = Zpos m * 2 ^ k -> Zpos (digits2_pos p) = Zpos (digits2_pos m) + k.
Proof.
  intros Hk Hp. apply digits2_pos_unique. rewrite Hp.
  pose proof (digits2_pos_bounds m) as [L H].
  replace (Z.pos (digits2_pos m) + k - 1) with ((Z.pos (digits2_pos m) - 1) + k) by lia.
  rewrite !Z.pow_add_r by lia.
  assert (0 < 2 ^ k) by (apply Z.pow_pos_nonneg; lia).
  nia.
Qed.

(** *** Rounding to the nearest integer, ties to even *)
Lemma rne_div_bounds M P : 0 < P -> M / P <= rne_div M P <= M / P + 1.
Proof.
  intros HP. unfold rne_div.
  destruct (2 * (M mod P) ?= P); [destruct (Z.even (M / P))|..]; lia.
Qed.

Lemma rne_div_mono M1 M2 P : 0 < P -> M1 <= M2 -> rne_div M1 P <= rne_div M2 P.
Proof.
  intros HP HM.
  assert (Hq : M1 / P <= M2 / P) by (apply Z.div_le_mono; lia).
  destruct (Z.eq_dec (M1 / P) (M2 / P)) as [E|N].
  - assert (HR : M1 mod P <= M2 mod P).
    { rewrite !Z.mod_eq by lia. rewrite E. lia. }
    unfold rne_div. rewrite E.
    destruct (Z.compare_spec (2 * (M1 mod P)) P), (Z.compare_spec (2 * (M2 mod P)) P);
      destruct (Z.even (M2 / P)); lia.
  - pose proof (rne_div_bounds M1 P HP). pose proof (rne_div_bounds M2 P HP). lia.
Qed.

Lemma rne_div_scale M P K : 0 < P -> 0 < K -> rne_div (M * K) (P * K) = rne_div M P.
Proof.
  intros HP HK. unfold rne_div.
  rewrite Z.div_mul_cancel_r by lia.
  rewrite Zmult_mod_distr_r.
  destruct (Z.compare_spec (2 * (M mod P * K)) (P * K)),
           (Z.compare_spec (2 * (M mod P)) P); try reflexivity; nia.
Qed.

Lemma rne_div_one M : rne_div M 1 = M.
Proof.
  unfold rne_div. rewrite Z.mod_1_r, Z.div_1_r. reflexivity.
Qed.

Lemma rne_0 M : rne M 0 = M.
Proof. apply rne_div_one. Qed.

Lemma pow2_pos n : 0 <= n -> 0 < 2 ^ n.
Proof. intros. apply Z.pow_pos_nonneg; lia. Qed.

Lemma rne_mono M1 M2 n : 0 <= n -> M1 <= M2 -> rne M1 n <= rne M2 n.
Proof. intros. apply rne_div_mono; [apply pow2_pos|]; assumption. Qed.

Lemma rne_shift M n k : 0 <= n -> 0 <= k -> rne (M * 2 ^ k) (n + k) = rne M n.
Proof.
  intros. unfold rne. rewrite Z.pow_add_r by lia.
  apply rne_div_scale; apply pow2_pos; assumption.
Qed.

Lemma rne_nonneg M n : 0 <= n -> 0 <= M -> 0 <= rne M n.
Proof.
  intros Hn HM. pose proof (rne_div_bounds M (2 ^ n) (pow2_pos n Hn)).
  assert (0 <= M / 2 ^ n) by (apply Z.div_pos; [lia | apply pow2_pos; lia]).
  unfold rne. lia.
Qed.


Lemma rne_upper M n d : 0 <= n -> n <= d -> 0 <= M < 2 ^ d -> rne M n <= 2 ^ (d - n).
Proof.
  intros Hn Hd [H0 HM].
  pose proof (rne_div_bounds M (2 ^ n) (pow2_pos n Hn)) as [_ Hu].
  assert (M / 2 ^ n < 2 ^ (d - n)).
  { apply Z.div_lt_upper_bound; [apply pow2_pos; lia|].
    rewrite <- Z.pow_add_r by lia. replace (n + (d - n)) with d by lia. assumption. }
  unfold rne. lia.
Qed.

Lemma rne_small M n d : 0 <= d < n -> 0 <= M < 2 ^ d -> rne M n = 0.
Proof.
  intros [Hd Hn] [H0 HM].
  assert (HP : 2 ^ n = 2 * 2 ^ (n - 1)).
  { rewrite <- Z.pow_succ_r by lia. f_equal. lia. }
  assert (2 ^ d <= 2 ^ (n - 1)) by (apply Z.pow_le_mono_r; lia).
  assert (0 < 2 ^ (n - 1)) by (apply pow2_pos; lia).
  unfold rne, rne_div.
  rewrite Z.mod_small by lia. rewrite Z.div_small by lia.
  destruct (Z.compare_spec (2 * M) (2 ^ n)); try reflexivity; lia.
Qed.

Lemma rne_lower M n d : 0 <= n -> n <= d -> 2 ^ d <= M -> 2 ^ (d - n) <= rne M n.
Proof.
  intros Hn Hd HM.
  pose proof (rne_div_bounds M (2 ^ n) (pow2_pos n Hn)) as [Hl _].
  assert (2 ^ (d - n) <= M / 2 ^ n).
  { apply Z.div_le_lower_bound; [apply pow2_pos; lia|].
    rewrite <- Z.pow_add_r by lia. replace (n + (d - n)) with d by lia. assumption. }
  unfold rne. lia.
Qed.

(** *** Shifting right with a round bit and a sticky bit *)
Lemma shr_1_spec mrs :
  0 <= shr_m mrs ->
  shr_1 mrs = Build_shr_record (shr_m mrs / 2) (Z.odd (shr_m mrs)) (shr_r mrs || shr_s mrs).
Proof.
  destruct mrs as [m r s]. cbn [shr_m shr_r shr_s]. intros Hm.
  rewrite <- Z.div2_div.
  destruct m as [|[p|p|]|p]; try reflexivity. lia.
Qed.

Lemma shr_1_inv M n mrs :
  0 <= M -> 0 <= n -> shr_inv M n mrs -> shr_inv M (n + 1) (shr_1 mrs).
Proof.
  intros HM Hn (Hm & Hr & Hs).
  assert (HP : 0 < 2 ^ n) by (apply pow2_pos; assumption).
  assert (Hq : 0 <= M / 2 ^ n) by (apply Z.div_pos; lia).
  rewrite shr_1_spec by lia.
  assert (HP' : 2 ^ (n + 1) = 2 ^ n * 2) by (rewrite Z.pow_add_r by lia; reflexivity).
  pose proof (Z.mod_pos_bound M (2 ^ n) HP) as HR.
  assert (HR' : M mod 2 ^ (n + 1) = M mod 2 ^ n + 2 ^ n * ((M / 2 ^ n) mod 2)).
  { rewrite HP'. apply Z.rem_mul_r; lia. }
  pose proof (Zmod_odd (M / 2 ^ n)) as Hodd.
  unfold shr_inv. cbn [shr_m shr_r shr_s].
  rewrite HR', HP', Hm. split; [|split].
  - rewrite Z.div_div by lia. reflexivity.
  - destruct (Z.odd (M / 2 ^ n)); rewrite Hodd; split; intros; try reflexivity; try lia; try discriminate.
  - rewrite Bool.orb_true_iff, Hr, Hs.
    destruct (Z.odd (M / 2 ^ n)); rewrite Hodd; lia.
Qed.

Lemma iter_pos_shr_inv p : forall M n mrs,
  0 <= M -> 0 <= n -> shr_inv M n mrs -> shr_inv M (n + Zpos p) (SpecFloat.iter_pos shr_1 p mrs).
Proof.
  induction p as [p IH | p IH |]; intros M n mrs HM Hn H; cbn [SpecFloat.iter_pos].
  - replace (n + Zpos p~1) with (((n + 1) + Zpos p) + Zpos p) by lia.
    apply IH; [lia | lia |]. apply IH; [lia | lia |]. apply shr_1_inv; assumption.
  - replace (n + Zpos p~0) with ((n + Zpos p) + Zpos p) by lia.
    apply IH; [lia | lia |]. apply IH; assumption.
  - apply shr_1_inv; assumption.
Qed.

Lemma shr_inv_init M : shr_inv M 0 (shr_record_of_loc M loc_Exact).
Proof.
  unfold shr_inv. cbn. rewrite Z.div_1_r, Z.mod_1_r. repeat split; intros; try discriminate; lia.
Qed.

Lemma shr_exact_spec M e n :
  0 <= M ->
  exists mrs, shr (shr_record_of_loc M loc_Exact) e n = (mrs, e + Z.max n 0)
              /\ shr_inv M (Z.max n 0) mrs.
Proof.
  intros HM. destruct n as [|p|p]; cbn [shr].
  - eexists; split; [f_equal; lia | apply shr_inv_init].
  - eexists; split; [f_equal; lia |].
    replace (Z.max (Zpos p) 0) with (0 + Zpos p) by lia.
    apply iter_pos_shr_inv; [lia | lia | apply shr_inv_init].
  - eexists; split; [f_equal; lia | apply shr_inv_init].
Qed.

Lemma round_nearest_even_inv M n mrs :
  0 <= n -> shr_inv M n mrs ->
  round_nearest_even (shr_m mrs) (loc_of_shr_record mrs) = rne M n.
Proof.
  intros Hn (Hm & Hr & Hs). destruct mrs as [m r s]; cbn [shr_m shr_r shr_s] in *.
  unfold rne, rne_div. rewrite <- Hm.
  assert (HP : 0 < 2 ^ n) by (apply pow2_pos; assumption).
  pose proof (Z.mod_pos_bound M (2 ^ n) HP) as HR.
  destruct (Z.compare_spec (2 * (M mod 2 ^ n)) (2 ^ n)) as [E|L|G];
    destruct r, s; cbn [loc_of_shr_record round_nearest_even]; try reflexivity;
    try (exfalso; intuition (try discriminate; try lia; fail)).
Qed.

(** *** [binary_round] *)
Lemma fexp_ge_emin e : -1074 <= fexp prec emax e.
Proof. unfold_fexp. lia. Qed.

Lemma second_stage (M t : Z) :
  0 <= M <= 2 ^ prec -> -1074 <= t ->
  exists mrs e2, shr_fexp prec emax M t loc_Exact = (mrs, e2) /\
    (shr_m mrs, e2) = if M =? 2 ^ prec then (2 ^ (prec - 1), t + 1) else (M, t).
Proof.
  intros [H0 HM] Ht. unfold shr_fexp.
  destruct (Z.eqb_spec M (2 ^ prec)) as [E|N].
  - subst M. change (Zdigits2 (2 ^ prec)) with 54.
    replace (fexp prec emax (54 + t) - t) with 1 by (unfold_fexp; lia).
    do 2 eexists. split; reflexivity.
  - assert (Hn : fexp prec emax (Zdigits2 M + t) - t <= 0).
    { destruct M as [|p|p]; [unfold_fexp; cbn; lia | | lia].
      cbn [Zdigits2]. pose proof (digits2_pos_bounds p) as [L _].
      assert (Zpos (digits2_pos p) <= prec).
      { destruct (Z_lt_le_dec prec (Zpos (digits2_pos p))) as [Hlt|]; [|assumption].
        assert (2 ^ prec <= 2 ^ (Zpos (digits2_pos p) - 1)) by (apply Z.pow_le_mono_r; lia).
        lia. }
      unfold_fexp. lia. }
    destruct (fexp prec emax (Zdigits2 M + t) - t) as [|q|q] eqn:En; [| lia |];
      do 2 eexists; (split; [reflexivity|]); reflexivity.
Qed.

Lemma rnd_pre_bounds (m : positive) (e : Z) :
  let t := fexp prec emax (Zpos (digits2_pos m) + e) in
  let M := if t <? e then Zpos m * 2 ^ (e - t) else rne (Zpos m) (t - e) in
  0 <= M <= 2 ^ prec.
Proof.
  intros t M. subst M.
  pose proof (digits2_pos_bounds m) as [L H].
  assert (Ht : Zpos (digits2_pos m) + e - prec <= t) by (subst t; unfold_fexp; lia).
  destruct (Z.ltb_spec t e) as [Hlt|Hge].
  - assert (0 < 2 ^ (e - t)) by (apply pow2_pos; lia).
    split; [nia|].
    assert (Zpos m * 2 ^ (e - t) < 2 ^ Zpos (digits2_pos m) * 2 ^ (e - t)) by nia.
    rewrite <- Z.pow_add_r in * by lia.
    assert (2 ^ (Zpos (digits2_pos m) + (e - t)) <= 2 ^ prec) by (apply Z.pow_le_mono_r; lia).
    lia.
  - split; [apply rne_nonneg; lia|].
    destruct (Z_lt_le_dec (Zpos (digits2_pos m)) (t - e)) as [Hs|Hs].
    + rewrite (rne_small _ _ (Zpos (digits2_pos m))) by lia.
      apply Z.lt_le_incl, pow2_pos. unfold prec. lia.
    + etransitivity; [apply (rne_upper _ _ (Zpos (digits2_pos m))); lia|].
      apply Z.pow_le_mono_r; lia.
Qed.

(** [binary_round] computes [rnd_core]: it aligns the mantissa to the
    exponent of its binade, rounds to nearest even, and renormalises a
    mantissa that rounding carried to [2^prec]. *)
Lemma binary_round_spec s m e :
  binary_round prec emax s m e = mk_float s (rnd_core m e).
Proof.
  unfold binary_round, rnd_core.
  pose proof (rnd_pre_bounds m e) as HB. cbv zeta in HB.
  pose proof (fexp_ge_emin (Zpos (digits2_pos m) + e)) as Ht.
  set (t := fexp prec emax (Zpos (digits2_pos m) + e)) in *.
  assert (Hstage1 : exists mrs e1,
    (let '(mz, ez) := shl_align m e t in shr_fexp prec emax (Zpos mz) ez loc_Exact) = (mrs, e1)
    /\ e1 = t
    /\ round_nearest_even (shr_m mrs) (loc_of_shr_record mrs)
       = if t <? e then Zpos m * 2 ^ (e - t) else rne (Zpos m) (t - e)).
  { unfold shl_align. destruct (Z.ltb_spec t e) as [Hlt|Hge].
    - destruct (t - e) as [|d|d] eqn:Ed; try lia.
      unfold shr_fexp. cbn [Zdigits2].
      assert (Hz : Zpos (Pos.iter xO m d) = Zpos m * 2 ^ (e - t)).
      { rewrite pos_iter_xO. f_equal. f_equal. lia. }
      rewrite (digits2_pos_shift m (e - t) _ ltac:(lia) Hz).
      replace (fexp prec emax (Zpos (digits2_pos m) + (e - t) + t) - t) with 0
        by (fold t; replace (Zpos (digits2_pos m) + (e - t) + t) with (Zpos (digits2_pos m) + e) by lia; fold t; lia).
      cbn [shr]. do 2 eexists. split; [reflexivity|]. split; [reflexivity|].
      cbn. exact Hz.
    - assert (Hsh : (let '(mz, ez) := match t - e with Zneg d => (Pos.iter xO m d, t) | _ => (m, e) end in
                     shr_fexp prec emax (Zpos mz) ez loc_Exact) = shr_fexp prec emax (Zpos m) e loc_Exact).
      { destruct (t - e) eqn:Ed; try reflexivity. lia. }
      rewrite Hsh. unfold shr_fexp. cbn [Zdigits2]. fold t.
      destruct (shr_exact_spec (Zpos m) e (t - e) ltac:(lia)) as (mrs & Hshr & Hinv).
      rewrite Hshr. do 2 eexists. split; [reflexivity|]. split; [lia|].
      rewrite Z.max_l in Hinv by lia.
      apply round_nearest_even_inv; [lia | assumption]. }
  destruct Hstage1 as (mrs & e1 & Hs1 & -> & Hrne).
  destruct (shl_align m e t) as [mz ez].
  unfold binary_round_aux. rewrite Hs1, Hrne.
  set (M := if t <? e then Zpos m * 2 ^ (e - t) else rne (Zpos m) (t - e)) in *.
  destruct (second_stage M t HB Ht) as (mrs2 & e2 & Hs2 & Hres).
  rewrite Hs2. unfold mk_float. rewrite <- Hres. cbn [fst snd]. reflexivity.
Qed.

(** *** Shifted mantissas, canonical inputs, monotonicity *)

(** The result depends on the value [m * 2^e] only. *)
Lemma rnd_core_shift (m p : positive) (e k : Z) :
  0 <= k -> Zpos p = Zpos m * 2 ^ k -> rnd_core p (e - k) = rnd_core m e.
Proof.
  intros Hk Hp. unfold rnd_core.
  rewrite (digits2_pos_shift m k p Hk Hp).
  replace (Zpos (digits2_pos m) + k + (e - k)) with (Zpos (digits2_pos m) + e) by lia.
  set (t := fexp prec emax (Zpos (digits2_pos m) + e)).
  assert (HM : (if t <? e - k then Zpos p * 2 ^ (e - k - t) else rne (Zpos p) (t - (e - k)))
             = (if t <? e then Zpos m * 2 ^ (e - t) else rne (Zpos m) (t - e))).
  { rewrite Hp. destruct (Z.ltb_spec t (e - k)) as [H1|H1], (Z.ltb_spec t e) as [H2|H2]; try lia.
    - rewrite <- Z.mul_assoc, <- Z.pow_add_r by lia. do 2 f_equal. lia.
    - replace (Zpos m * 2 ^ k) with (Zpos m * 2 ^ (e - t) * 2 ^ (t - (e - k))).
      + replace (t - (e - k)) with (0 + (t - (e - k))) at 2 by lia.
        rewrite rne_shift by lia. apply rne_0.
      + rewrite <- Z.mul_assoc, <- Z.pow_add_r by lia. do 2 f_equal. lia.
    - replace (t - (e - k)) with ((t - e) + k) by lia. apply rne_shift; lia. }
  rewrite HM. reflexivity.
Qed.

Lemma canonical_digits m e :
  canonical_mantissa prec emax m e = true ->
  fexp prec emax (Zpos (digits2_pos m) + e) = e /\ Zpos (digits2_pos m) <= prec.
Proof.
  unfold canonical_mantissa. intros H%Z.eqb_eq. split; [assumption|]. unfold_fexp. lia.
Qed.

Lemma lt_pow_digits m k : Zpos (digits2_pos m) <= k -> Zpos m < 2 ^ k.
Proof.
  intros H. pose proof (digits2_pos_bounds m) as [_ Hu].
  assert (2 ^ Zpos (digits2_pos m) <= 2 ^ k) by (apply Z.pow_le_mono_r; lia). lia.
Qed.

(** A canonical float is its own rounding. *)
Lemma rnd_core_canonical m e :
  canonical_mantissa prec emax m e = true -> rnd_core m e = (Zpos m, e).
Proof.
  intros [Ht Hd]%canonical_digits. unfold rnd_core. rewrite Ht.
  rewrite Z.ltb_irrefl, Z.sub_diag, rne_0.
  pose proof (lt_pow_digits m prec Hd).
  destruct (Z.eqb_spec (Zpos m) (2 ^ prec)); [lia | reflexivity].
Qed.

Lemma pow2_prec : 2 ^ prec = 9007199254740992.
Proof. reflexivity. Qed.
Lemma pow2_prec1 : 2 ^ (prec - 1) = 4503599627370496.
Proof. reflexivity. Qed.

Lemma rnd_pre_lower (m : positive) (e : Z) :
  let t := fexp prec emax (Zpos (digits2_pos m) + e) in
  let M := if t <? e then Zpos m * 2 ^ (e - t) else rne (Zpos m) (t - e) in
  -1074 < t -> 2 ^ (prec - 1) <= M.
Proof.
  intros t M Ht. subst M.
  pose proof (digits2_pos_bounds m) as [L H].
  assert (Et : t = Zpos (digits2_pos m) + e - prec) by (subst t; unfold_fexp; lia).
  destruct (Z.ltb_spec t e) as [Hlt|Hge].
  - assert (0 < 2 ^ (e - t)) by (apply pow2_pos; lia).
    assert (2 ^ (Zpos (digits2_pos m) - 1) * 2 ^ (e - t) <= Zpos m * 2 ^ (e - t)) by nia.
    rewrite <- Z.pow_add_r in * by lia.
    replace (Zpos (digits2_pos m) - 1 + (e - t)) with (prec - 1) in * by lia. assumption.
  - replace (prec - 1) with ((Zpos (digits2_pos m) - 1) - (t - e)) by lia.
    apply rne_lower; unfold prec in *; lia.
Qed.

(** Rounding is monotone. *)
Lemma rnd_core_mono (m1 m2 : positive) (e : Z) :
  (m1 <= m2)%positive -> le_core (rnd_core m1 e) (rnd_core m2 e).
Proof.
  intros Hm. pose proof (digits2_pos_mono m1 m2 Hm) as Hd.
  pose proof (rnd_pre_bounds m1 e) as B1. pose proof (rnd_pre_bounds m2 e) as B2.
  pose proof (rnd_pre_lower m2 e) as L2.
  unfold rnd_core, le_core. cbv zeta in B1, B2, L2.
  set (t1 := fexp prec emax (Zpos (digits2_pos m1) + e)) in *.
  set (t2 := fexp prec emax (Zpos (digits2_pos m2) + e)) in *.
  assert (Ht : t1 <= t2) by (subst t1 t2; unfold_fexp; lia).
  assert (Hsame : t1 = t2 ->
     (if t1 <? e then Zpos m1 * 2 ^ (e - t1) else rne (Zpos m1) (t1 - e))
     <= (if t2 <? e then Zpos m2 * 2 ^ (e - t2) else rne (Zpos m2) (t2 - e))).
  { intros <-. destruct (Z.ltb_spec t1 e).
    - assert (0 < 2 ^ (e - t1)) by (apply pow2_pos; lia). nia.
    - apply rne_mono; lia. }
  assert (Ht1 : -1074 <= t1) by apply fexp_ge_emin.
  set (M1 := if t1 <? e then Zpos m1 * 2 ^ (e - t1) else rne (Zpos m1) (t1 - e)) in *.
  set (M2 := if t2 <? e then Zpos m2 * 2 ^ (e - t2) else rne (Zpos m2) (t2 - e)) in *.
  rewrite pow2_prec, pow2_prec1 in *.
  destruct (Z.eqb_spec M1 9007199254740992), (Z.eqb_spec M2 9007199254740992); cbn [fst snd];
    destruct (Z.eq_dec t1 t2) as [E|N];
    try (specialize (Hsame E)); try (assert (4503599627370496 <= M2) by (apply L2; lia)); lia.
Qed.

Lemma mk_float_abs s p : SFabs (mk_float s p) = mk_float false p.
Proof.
  unfold mk_float. destruct (fst p); [reflexivity | | reflexivity].
  destruct (snd p <=? emax - prec); reflexivity.
Qed.

Lemma mk_float_le s1 p1 p2 : le_core p1 p2 -> ale (mk_float s1 p1) (mk_float false p2).
Proof.
  unfold ale. rewrite mk_float_abs. destruct p1 as [M1 E1], p2 as [M2 E2].
  unfold le_core, mk_float, SFleb. cbn [fst snd]. intros (H1 & H2 & H).
  destruct M1 as [|a|a]; [| | lia]; (destruct M2 as [|b|b]; [| | lia]).
  - reflexivity.
  - destruct (E2 <=? emax - prec); reflexivity.
  - lia.
  - destruct (Z.leb_spec E1 (emax - prec)), (Z.leb_spec E2 (emax - prec)); cbn [SFcompare]; try reflexivity.
    + destruct (Z.compare_spec E1 E2); try reflexivity; [|lia].
      rewrite Pos.compare_cont_spec. cbn [Pos.switch_Eq].
      destruct (Pos.compare_spec a b); try reflexivity. lia.
    + lia.
Qed.

(** *** [binary_normalize] *)
Lemma rnd_core_nonneg m e : 0 <= fst (rnd_core m e).
Proof.
  pose proof (rnd_pre_bounds m e) as B. unfold rnd_core. cbv zeta in B.
  match goal with |- context [?M =? 2 ^ prec] => destruct (Z.eqb_spec M (2 ^ prec)) end;
    cbn [fst]; [rewrite pow2_prec1|]; lia.
Qed.

Lemma normalize_pos (a : Z) (c : Z) (sz : bool) :
  0 < a -> binary_normalize prec emax a c sz = mk_float false (rnd_core (Z.to_pos a) c).
Proof.
  intros Ha. destruct a as [|p|p]; try lia. cbn [binary_normalize Z.to_pos].
  apply binary_round_spec.
Qed.

Lemma normalize_neg (a : Z) (c : Z) (sz : bool) :
  a < 0 -> binary_normalize prec emax a c sz = mk_float true (rnd_core (Z.to_pos (- a)) c).
Proof.
  intros Ha. destruct a as [|p|p]; try lia. change (- Z.neg p) with (Z.pos p).
  cbn [binary_normalize Z.to_pos]. apply binary_round_spec.
Qed.

Lemma normalize_mono (a A c : Z) (sz sz' : bool) :
  Z.abs a <= A -> ale (binary_normalize prec emax a c sz) (binary_normalize prec emax A c sz').
Proof.
  intros H.
  destruct (Z.eq_dec A 0) as [->|NA].
  { assert (a = 0) by lia. subst a. reflexivity. }
  rewrite (normalize_pos A) by lia.
  assert (HA : le_core (0, 0) (rnd_core (Z.to_pos A) c)).
  { unfold le_core; cbn [fst snd]. pose proof (rnd_core_nonneg (Z.to_pos A) c). lia. }
  destruct (Z.lt_trichotomy a 0) as [Hn | [-> | Hp]].
  - rewrite normalize_neg by lia. apply mk_float_le, rnd_core_mono. lia.
  - change (binary_normalize prec emax 0 c sz) with (mk_float sz (0, 0)).
    apply mk_float_le, HA.
  - rewrite normalize_pos by lia. apply mk_float_le, rnd_core_mono. lia.
Qed.

Lemma normalize_shift (a e k : Z) (sz : bool) :
  0 <= k -> binary_normalize prec emax (a * 2 ^ k) (e - k) sz = binary_normalize prec emax a e sz.
Proof.
  intros Hk. assert (HP : 0 < 2 ^ k) by (apply pow2_pos; assumption).
  destruct (Z.lt_trichotomy a 0) as [Hn | [-> | Hp]].
  - rewrite (normalize_neg a), (normalize_neg (a * 2 ^ k)) by nia.
    f_equal. apply rnd_core_shift; [assumption|]. rewrite !Z2Pos.id by nia. lia.
  - reflexivity.
  - rewrite (normalize_pos a), (normalize_pos (a * 2 ^ k)) by nia.
    f_equal. apply rnd_core_shift; [assumption|]. rewrite !Z2Pos.id by nia. lia.
Qed.

(** *** Finite numbers at a common exponent *)
Lemma normalize_scaled x c :
  is_fin x = true -> valid_binary x = true -> c <= fexpo x ->
  nz (binary_normalize prec emax (scaled x c) c false) = nz x.
Proof.
  intros Hf Hv Hc. unfold scaled.
  replace c with (fexpo x - (fexpo x - c)) at 2 by lia.
  rewrite normalize_shift by lia.
  destruct x as [s | s | | s m e]; try discriminate; try reflexivity.
  cbn [fmant fexpo valid_binary] in *. unfold bounded in Hv.
  apply andb_prop in Hv as [Hcan Hb%Z.leb_le].
  destruct s; [change (cond_Zopp true (Zpos m)) with (Zneg m) | change (cond_Zopp false (Zpos m)) with (Zpos m)];
    cbn [binary_normalize]; rewrite binary_round_spec, rnd_core_canonical by assumption;
    unfold mk_float; cbn [fst snd]; destruct (Z.leb_spec e (emax - prec)); try reflexivity; lia.
Qed.

Lemma shl_align_fst m e c :
  c <= e -> Zpos (fst (shl_align m e c)) = Zpos m * 2 ^ (e - c).
Proof.
  intros Hc. unfold shl_align. destruct (c - e) as [|d|d] eqn:E; cbn [fst].
  - replace (e - c) with 0 by lia. lia.
  - lia.
  - rewrite pos_iter_xO. do 2 f_equal. lia.
Qed.

Lemma cond_Zopp_mul s a b : cond_Zopp s a * b = cond_Zopp s (a * b).
Proof. destruct s; cbn; lia. Qed.

(** A sum is the rounding of the sum of the two mantissas, both taken at any
    exponent [c] below the exponents of the operands. *)
Lemma SFadd_scaled x y c :
  is_fin x = true -> is_fin y = true -> valid_binary x = true -> valid_binary y = true ->
  c <= fexpo x -> c <= fexpo y ->
  nz (SFadd prec emax x y) = nz (binary_normalize prec emax (scaled x c + scaled y c) c false).
Proof.
  intros Fx Fy Vx Vy Cx Cy.
  destruct x as [sx | sx | | sx mx ex]; try discriminate;
    destruct y as [sy | sy | | sy my ey]; try discriminate.
  - destruct sx, sy; reflexivity.
  - change (scaled (S754_zero sx) c) with 0. rewrite Z.add_0_l.
    rewrite normalize_scaled by assumption. reflexivity.
  - change (scaled (S754_zero sy) c) with 0. rewrite Z.add_0_r.
    rewrite normalize_scaled by assumption. reflexivity.
  - cbn [SFadd fexpo] in *. f_equal.
    rewrite !shl_align_fst by lia.
    set (ez := Z.min ex ey).
    replace c with (ez - (ez - c)) at 3 by lia.
    rewrite <- (normalize_shift _ ez (ez - c)) by lia. f_equal.
    unfold scaled. cbn [fmant fexpo].
    rewrite Z.mul_add_distr_r, !cond_Zopp_mul, <- !Z.mul_assoc, <- !Z.pow_add_r by lia.
    do 2 (f_equal; try (f_equal; f_equal; lia)).
Qed.

Lemma SFsub_scaled x y c :
  is_fin x = true -> is_fin y = true -> valid_binary x = true -> valid_binary y = true ->
  c <= fexpo x -> c <= fexpo y ->
  nz (SFsub prec emax x y) = nz (binary_normalize prec emax (scaled x c - scaled y c) c false).
Proof.
  intros Fx Fy Vx Vy Cx Cy.
  destruct x as [sx | sx | | sx mx ex]; try discriminate;
    destruct y as [sy | sy | | sy my ey]; try discriminate.
  - destruct sx, sy; reflexivity.
  - change (scaled (S754_zero sx) c) with 0. rewrite Z.sub_0_l.
    replace (- scaled (S754_finite sy my ey) c) with (scaled (S754_finite (negb sy) my ey) c)
      by (unfold scaled; cbn [fmant fexpo]; destruct sy; cbn [negb cond_Zopp]; ring).
    rewrite normalize_scaled by assumption. reflexivity.
  - change (scaled (S754_zero sy) c) with 0. rewrite Z.sub_0_r.
    rewrite normalize_scaled by assumption. reflexivity.
  - cbn [SFsub fexpo] in *. f_equal.
    rewrite !shl_align_fst by lia.
    set (ez := Z.min ex ey).
    replace c with (ez - (ez - c)) at 3 by lia.
    rewrite <- (normalize_shift _ ez (ez - c)) by lia. f_equal.
    unfold scaled. cbn [fmant fexpo].
    rewrite Z.mul_sub_distr_r, !cond_Zopp_mul, <- !Z.mul_assoc, <- !Z.pow_add_r by lia.
    do 2 (f_equal; try (f_equal; f_equal; lia)).
Qed.

(** *** The order of IEEE 754 *)
Lemma ale_nz u V : ale (nz u) (nz V) <-> ale u V.
Proof.
  unfold ale, SFleb. destruct u as [su|su| |su mu eu], V as [sV|sV| |sV mV eV]; reflexivity.
Qed.

Lemma ale_to_inf u V : ale u V -> ale u (S754_infinity false).
Proof.
  unfold ale, SFleb. destruct u as [su|su| |su mu eu], V as [sV|sV| |sV mV eV];
    cbn; try discriminate; reflexivity.
Qed.

Lemma ale_fin u V : ale u V -> is_fin V = true -> is_fin u = true.
Proof.
  unfold ale, SFleb. destruct u as [su|su| |su mu eu], V as [sV|sV| |sV mV eV];
    cbn; try discriminate; try reflexivity; destruct sV; discriminate.
Qed.

Lemma is_fin_nz u : is_fin (nz u) = is_fin u.
Proof. destruct u; reflexivity. Qed.

Lemma fexpo_nz u : fexpo (nz u) = fexpo u.
Proof. destruct u; reflexivity. Qed.

Lemma ale_nonneg u V : is_fin u = true -> ale u V -> nonneg V.
Proof.
  unfold ale, nonneg, SFleb. destruct u as [su|su| |su mu eu], V as [sV|sV| |sV mV eV];
    cbn; try discriminate; try reflexivity; destruct sV; try discriminate; reflexivity.
Qed.

Lemma ale_refl_nonneg x : is_fin x = true -> nonneg x -> ale x x.
Proof.
  unfold ale, nonneg, SFleb. destruct x as [s|s| |s m e]; cbn; try discriminate; try reflexivity.
  destruct s; try discriminate. intros _ _.
  rewrite Z.compare_refl, Pos.compare_cont_refl. reflexivity.
Qed.

Lemma scaled_nonneg x c : nonneg x -> c <= fexpo x -> 0 <= scaled x c.
Proof.
  unfold nonneg, SFleb, scaled. destruct x as [s|s| |s m e]; cbn [fmant]; try lia.
  cbn. destruct s; try discriminate. intros _ Hc. cbn [fexpo cond_Zopp] in *.
  assert (0 < 2 ^ (e - c)) by (apply pow2_pos; lia). nia.
Qed.

(** On valid floats the order compares the values. *)
Lemma ale_scaled x X c :
  is_fin x = true -> is_fin X = true -> valid_binary x = true -> valid_binary X = true ->
  ale x X -> c <= fexpo x -> c <= fexpo X ->
  Z.abs (scaled x c) <= scaled X c.
Proof.
  intros Fx FX Vx VX H Cx CX.
  pose proof (scaled_nonneg X c (ale_nonneg _ _ Fx H) CX) as HX.
  destruct x as [s|s| |s m e]; try discriminate.
  { unfold scaled at 1. cbn [fmant]. lia. }
  destruct X as [S|S| |S M E]; try discriminate.
  unfold ale, SFleb in H. cbn [SFabs SFcompare] in H.
  destruct S; [discriminate|].
  cbn [fexpo valid_binary] in *. unfold bounded in Vx, VX.
  apply andb_prop in Vx as [[Hte Hd]%canonical_digits _].
  apply andb_prop in VX as [[HtE HD]%canonical_digits _].
  unfold scaled. cbn [fmant fexpo cond_Zopp].
  assert (Habs : Z.abs (cond_Zopp s (Zpos m) * 2 ^ (e - c)) = Zpos m * 2 ^ (e - c)).
  { assert (0 < 2 ^ (e - c)) by (apply pow2_pos; lia). destruct s; cbn [cond_Zopp]; nia. }
  rewrite Habs.
  destruct (Z.compare_spec e E) as [->|Hlt|Hgt]; [| |discriminate].
  - rewrite Pos.compare_cont_spec in H. cbn [Pos.switch_Eq] in H.
    assert (0 < 2 ^ (E - c)) by (apply pow2_pos; lia).
    destruct (Pos.compare_spec m M); try discriminate; nia.
  - pose proof (lt_pow_digits m prec Hd) as Hm.
    pose proof (digits2_pos_bounds M) as [LM _].
    assert (ED : Zpos (digits2_pos M) = prec) by (unfold_fexp; lia).
    rewrite ED in LM.
    assert (P1 : 0 < 2 ^ (e - c)) by (apply pow2_pos; lia).
    assert (P2 : 0 < 2 ^ (E - c)) by (apply pow2_pos; lia).
    assert (Zpos m * 2 ^ (e - c) <= 2 ^ prec * 2 ^ (e - c)) by nia.
    assert (2 ^ (prec - 1) * 2 ^ (E - c) <= Zpos M * 2 ^ (E - c)) by nia.
    assert (2 ^ prec * 2 ^ (e - c) <= 2 ^ (prec - 1) * 2 ^ (E - c)).
    { rewrite <- !Z.pow_add_r by (unfold prec; lia). apply Z.pow_le_mono_r; lia. }
    lia.
Qed.

(** *** Sums and differences bounded by sums *)
Lemma dominate_fin x y X Y :
  is_fin x = true -> is_fin y = true -> is_fin X = true -> is_fin Y = true ->
  valid_binary x = true -> valid_binary y = true ->
  valid_binary X = true -> valid_binary Y = true ->
  ale x X -> ale y Y ->
  ale (SFadd prec emax x y) (SFadd prec emax X Y) /\ ale (SFsub prec emax x y) (SFadd prec emax X Y).
Proof.
  intros Fx Fy FX FY Vx Vy VX VY Hx Hy.
  set (c := min4 (fexpo x) (fexpo y) (fexpo X) (fexpo Y)).
  assert (Hc : c <= fexpo x /\ c <= fexpo y /\ c <= fexpo X /\ c <= fexpo Y)
    by (subst c; unfold min4; lia).
  destruct Hc as (Cx & Cy & CX & CY).
  pose proof (ale_scaled x X c Fx FX Vx VX Hx Cx CX) as Sx.
  pose proof (ale_scaled y Y c Fy FY Vy VY Hy Cy CY) as Sy.
  split; apply ale_nz.
  - rewrite (SFadd_scaled x y c), (SFadd_scaled X Y c) by assumption.
    apply ale_nz, normalize_mono. lia.
  - rewrite (SFsub_scaled x y c), (SFadd_scaled X Y c) by assumption.
    apply ale_nz, normalize_mono. lia.
Qed.

Lemma normalize_ale_inf a c sz : ale (binary_normalize prec emax a c sz) (S754_infinity false).
Proof.
  apply (ale_to_inf _ (binary_normalize prec emax (Z.abs a) c false)), normalize_mono. lia.
Qed.

Lemma fin_add_sub_ale_inf x y :
  is_fin x = true -> is_fin y = true -> valid_binary x = true -> valid_binary y = true ->
  ale (SFadd prec emax x y) (S754_infinity false) /\ ale (SFsub prec emax x y) (S754_infinity false).
Proof.
  intros Fx Fy Vx Vy.
  set (c := Z.min (fexpo x) (fexpo y)).
  split; apply (ale_nz _ (S754_infinity false)).
  - rewrite (SFadd_scaled x y c) by (try assumption; subst c; lia).
    apply (ale_nz _ (S754_infinity false)), normalize_ale_inf.
  - rewrite (SFsub_scaled x y c) by (try assumption; subst c; lia).
    apply (ale_nz _ (S754_infinity false)), normalize_ale_inf.
Qed.

Lemma SFadd_inf_l Y : nonneg Y -> SFadd prec emax (S754_infinity false) Y = S754_infinity false.
Proof.
  unfold nonneg, SFleb. destruct Y as [s|s| |s m e]; cbn; try discriminate; try reflexivity.
  destruct s; [discriminate | reflexivity].
Qed.

Lemma SFadd_inf_r X : nonneg X -> SFadd prec emax X (S754_infinity false) = S754_infinity false.
Proof.
  unfold nonneg, SFleb. destruct X as [s|s| |s m e]; cbn; try discriminate; try reflexivity.
  destruct s; [discriminate | reflexivity].
Qed.

Lemma nonneg_cases X : nonneg X -> is_fin X = true \/ X = S754_infinity false.
Proof.
  unfold nonneg, SFleb. destruct X as [s|s| |s m e]; cbn; try discriminate; auto.
  destruct s; [discriminate | auto].
Qed.

(** [|x| <= X] and [|y| <= Y] give [|x + y| <= X + Y] and
    [|x - y| <= X + Y], of the rounded sums; [X + Y] may overflow to
    [+infinity]. *)
Lemma dominate x y X Y :
  is_fin x = true -> is_fin y = true ->
  valid_binary x = true -> valid_binary y = true ->
  valid_binary X = true -> valid_binary Y = true ->
  ale x X -> ale y Y ->
  ale (SFadd prec emax x y) (SFadd prec emax X Y) /\ ale (SFsub prec emax x y) (SFadd prec emax X Y).
Proof.
  intros Fx Fy Vx Vy VX VY Hx Hy.
  pose proof (ale_nonneg _ _ Fx Hx) as NX. pose proof (ale_nonneg _ _ Fy Hy) as NY.
  destruct (nonneg_cases X NX) as [FX | ->].
  - destruct (nonneg_cases Y NY) as [FY | ->].
    + apply dominate_fin; assumption.
    + rewrite SFadd_inf_r by assumption. apply fin_add_sub_ale_inf; assumption.
  - rewrite SFadd_inf_l by assumption. apply fin_add_sub_ale_inf; assumption.
Qed.

(** The difference of two finite non-negative floats does not overflow. *)
Lemma sub_is_fin x y :
  is_fin x = true -> is_fin y = true -> valid_binary x = true -> valid_binary y = true ->
  nonneg x -> nonneg y -> is_fin (SFsub prec emax x y) = true.
Proof.
  intros Fx Fy Vx Vy Nx Ny.
  set (c := Z.min (fexpo x) (fexpo y)).
  assert (Cx : c <= fexpo x) by (subst c; lia).
  assert (Cy : c <= fexpo y) by (subst c; lia).
  pose proof (scaled_nonneg x c Nx Cx) as Sx. pose proof (scaled_nonneg y c Ny Cy) as Sy.
  rewrite <- is_fin_nz, (SFsub_scaled x y c) by assumption.
  destruct (Z_le_gt_dec (scaled y c) (scaled x c)) as [Hle|Hgt].
  - assert (H : ale (nz (binary_normalize prec emax (scaled x c - scaled y c) c false)) (nz x)).
    { rewrite <- (normalize_scaled x c) by assumption. apply ale_nz, normalize_mono. lia. }
    apply (ale_fin _ _ H). rewrite is_fin_nz. assumption.
  - assert (H : ale (nz (binary_normalize prec emax (scaled x c - scaled y c) c false)) (nz y)).
    { rewrite <- (normalize_scaled y c) by assumption. apply ale_nz, normalize_mono. lia. }
    apply (ale_fin _ _ H). rewrite is_fin_nz. assumption.
Qed.

Lemma exposure_bound_SF b s ob os :
  is_fin b = true -> is_fin s = true -> is_fin ob = true -> is_fin os = true ->
  valid_binary b = true -> valid_binary s = true -> valid_binary ob = true -> valid_binary os = true ->
  nonneg b -> nonneg s -> nonneg ob -> nonneg os ->
  valid_binary (SFsub prec emax b s) = true -> valid_binary (SFsub prec emax ob os) = true ->
  valid_binary (SFadd prec emax b s) = true -> valid_binary (SFadd prec emax ob os) = true ->
  SFleb (SFabs (SFadd prec emax (SFsub prec emax b s) (SFsub prec emax ob os)))
        (SFadd prec emax (SFadd prec emax b s) (SFadd prec emax ob os)) = true.
Proof.
  intros Fb Fs Fob Fos Vb Vs Vob Vos Nb Ns Nob Nos V1 V2 V3 V4.
  destruct (dominate b s b s) as [_ H1]; try assumption; try (apply ale_refl_nonneg; assumption).
  destruct (dominate ob os ob os) as [_ H2]; try assumption; try (apply ale_refl_nonneg; assumption).
  pose proof (sub_is_fin b s Fb Fs Vb Vs Nb Ns) as F1.
  pose proof (sub_is_fin ob os Fob Fos Vob Vos Nob Nos) as F2.
  destruct (dominate _ _ _ _ F1 F2 V1 V2 V3 V4 H1 H2) as [H _]. exact H.
Qed.

(** ** Instrument *)

Section InstrumentFacts.
Context `{Externals}.

Lemma finite_nonneg_spec (x : float) :
  Instrument.finite_nonneg x = true ->
  is_fin (Prim2SF x) = true /\ nonneg (Prim2SF x).
Proof.
  unfold Instrument.finite_nonneg. intros [H1 H2]%andb_prop.
  rewrite leb_spec in H1. rewrite ltb_spec in H2.
  change (Prim2SF 0) with (S754_zero false) in H1.
  change (Prim2SF infinity) with (S754_infinity false) in H2.
  split; [|exact H1].
  unfold SFleb, SFltb in *.
  destruct (Prim2SF x) as [s|s| |s m e]; try reflexivity; cbn in *; try discriminate.
  destruct s; discriminate.
Qed.

(** The bound on doubles: for finite non-negative [b], [s], [ob], [os],
    [|(b - s) + (ob - os)| <= (b + s) + (ob + os)] holds of the rounded
    results. *)
Lemma exposure_bound (b s ob os : float) :
  Instrument.finite_nonneg b = true -> Instrument.finite_nonneg s = true ->
  Instrument.finite_nonneg ob = true -> Instrument.finite_nonneg os = true ->
  (abs ((b - s) + (ob - os)) <=? (b + s) + (ob + os))%float = true.
Proof.
  intros [Fb Nb]%finite_nonneg_spec [Fs Ns]%finite_nonneg_spec
         [Fob Nob]%finite_nonneg_spec [Fos Nos]%finite_nonneg_spec.
  rewrite leb_spec, abs_spec, !add_spec, !sub_spec.
  apply exposure_bound_SF; try assumption; try apply Prim2SF_valid.
  all: unfold SF64sub, SF64add; rewrite <- ?sub_spec, <- ?add_spec; apply Prim2SF_valid.
Qed.

(** C5, as amended: for every [Instrument] whose four stored quantities are
    finite and non-negative, [total_exposure()] is greater than or equal to the
    absolute value of [net_qty() + net_outstanding_qty()]. *)
Theorem total_exposure_bounds_net (i : Instrument.t) :
  Instrument.finite_nonneg (Instrument.bought_qty_ i) = true ->
  Instrument.finite_nonneg (Instrument.sold_qty_ i) = true ->
  Instrument.finite_nonneg (Instrument.outstanding_buy_qty_ i) = true ->
  Instrument.finite_nonneg (Instrument.outstanding_sell_qty_ i) = true ->
  (abs (Instrument.net_qty i + Instrument.net_outstanding_qty i)
     <=? Instrument.total_exposure i)%float = true.
Proof.
  intros Hb Hs Hob Hos.
  unfold Instrument.total_exposure, Instrument.net_qty, Instrument.total_qty,
    Instrument.net_outstanding_qty, Instrument.total_outstanding_qty.
  apply exposure_bound; assumption.
Qed.

(** C10: [md_] is null in a freshly constructed [Instrument], so [md()]
    dereferences a null pointer there; [md()] fails exactly when [md_] is
    null, and once a snapshot is cached it returns that snapshot. *)
Theorem md_requires_cached_market_data :
  (forall algo sec src,
     Instrument.md_ (Instrument.new algo sec src) = None /\
     Instrument.md (Instrument.new algo sec src) = deref_null) /\
  (forall i : Instrument.t, Instrument.md i = deref_null <-> Instrument.md_ i = None) /\
  (forall (i : Instrument.t) d, Instrument.md_ i = Some d -> Instrument.md i = deref_ok d).
Proof.
  split; [|split].
  - intros algo sec src. split; reflexivity.
  - intros i. unfold Instrument.md. destruct (Instrument.md_ i); split; congruence.
  - intros i d Hd. unfold Instrument.md. rewrite Hd. reflexivity.
Qed.
End InstrumentFacts.

(** The four quantities of [filled_position] are finite and non-negative, and
    its exposure bounds its net position. *)
Lemma total_exposure_bounds_net_witness :
  (abs (Instrument.net_qty filled_position + Instrument.net_outstanding_qty filled_position)
     <=? Instrument.total_exposure filled_position)%float = true.
Proof.
  apply (@total_exposure_bounds_net numeric_externals filled_position); reflexivity.
Defined.

(** C5 as stated fails: the four quantities of [unbounded_position] are
    non-negative, its [total_exposure()] is [+infinity], and
    [net_qty() + net_outstanding_qty()] is NaN, which no number bounds. *)
Lemma total_exposure_unbounded_position :
  Instrument.nonnegative (Instrument.bought_qty_ unbounded_position) = true /\
  Instrument.nonnegative (Instrument.sold_qty_ unbounded_position) = true /\
  Instrument.nonnegative (Instrument.outstanding_buy_qty_ unbounded_position) = true /\
  Instrument.nonnegative (Instrument.outstanding_sell_qty_ unbounded_position) = true /\
  (abs (Instrument.net_qty unbounded_position
        + Instrument.net_outstanding_qty unbounded_position)
     <=? Instrument.total_exposure unbounded_position)%float = false.
Proof. repeat split. Qed.

(** [filled_position] has a cached snapshot, and [md()] returns it. *)
Lemma md_requires_cached_market_data_witness :
  Instrument.md filled_position = deref_ok 42.
Proof.
  apply (proj2 (proj2 (@md_requires_cached_market_data numeric_externals))).
  reflexivity.
Defined.

(** ** Parameter values *)

Section ParamDefFacts.
Context `{Externals}.

Lemma held_nth (v : ParamDef.Value) :
  nth_error ParamDef.Value_alternatives (ParamDef.Value_index v) = Some (ParamDef.held v).
Proof. destruct v; reflexivity. Qed.

(** C6, as amended: [ParamDef::Value] is a closed sum type over exactly eight
    alternatives, [std::string], [const char*], [bool], [int64_t], [int32_t],
    [double], [SecurityTuple] and the list of scalars; every value holds one
    of them, each of them is held by some value, and the scalar is the same
    union without the list. *)
Theorem Value_alternatives_exhaustive :
  length ParamDef.Value_alternatives = 8%nat /\
  List.NoDup ParamDef.Value_alternatives /\
  (forall v : ParamDef.Value,
     List.In (ParamDef.held v) ParamDef.Value_alternatives /\
     (ParamDef.Value_index v < 8)%nat) /\
  (forall a, List.In a ParamDef.Value_alternatives ->
     exists v : ParamDef.Value, ParamDef.held v = a) /\
  ParamDef.Value_alternatives
    = ParamDef.ValueScalar_alternatives ++ [ParamDef.alt_ValueVector] /\
  (forall v : ParamDef.Value,
     ParamDef.held v <> ParamDef.alt_ValueVector <->
     exists s : ParamDef.ValueScalar, v = ParamDef.of_scalar s) /\
  (forall v : ParamDef.Value,
     ParamDef.held v = ParamDef.alt_ValueVector <->
     exists l : list ParamDef.ValueScalar, v = ParamDef.value_ValueVector l).
Proof.
  split; [reflexivity|]. split.
  { unfold ParamDef.Value_alternatives, ParamDef.ValueScalar_alternatives. cbn [app].
    repeat (constructor; [cbn; intuition discriminate|]). constructor. }
  split.
  { intros v. split; [|destruct v; cbn; lia].
    apply nth_error_In with (n := ParamDef.Value_index v), held_nth. }
  split.
  { intros a Ha. destruct a.
    - exists (ParamDef.value_string EmptyString). reflexivity.
    - exists (ParamDef.value_cstr None). reflexivity.
    - exists (ParamDef.value_bool false). reflexivity.
    - exists (ParamDef.value_int64 0). reflexivity.
    - exists (ParamDef.value_int32 0). reflexivity.
    - exists (ParamDef.value_double 0%float). reflexivity.
    - exists (ParamDef.value_SecurityTuple SecurityTuple.default). reflexivity.
    - exists (ParamDef.value_ValueVector []). reflexivity. }
  split; [reflexivity|]. split.
  - intros v. split.
    + intros Hv. destruct v as [s|p|b|n|n|d|t|l].
      * exists (ParamDef.scalar_string s). reflexivity.
      * exists (ParamDef.scalar_cstr p). reflexivity.
      * exists (ParamDef.scalar_bool b). reflexivity.
      * exists (ParamDef.scalar_int64 n). reflexivity.
      * exists (ParamDef.scalar_int32 n). reflexivity.
      * exists (ParamDef.scalar_double d). reflexivity.
      * exists (ParamDef.scalar_SecurityTuple t). reflexivity.
      * exfalso. apply Hv. reflexivity.
    + intros [s ->]. destruct s; discriminate.
  - intros v. split.
    + intros Hv. destruct v; try discriminate. eexists. reflexivity.
    + intros [l ->]. reflexivity.
Qed.
End ParamDefFacts.

(** C6 as stated fails: a value holding a [const char*] (what a string
    literal converts to) holds none of the seven alternatives the
    specification lists; [std::holds_alternative<std::string>] is false of
    it. *)
Lemma Value_const_char_ptr_not_listed :
  exists v : @ParamDef.Value numeric_externals,
    v = ParamDef.value_cstr (Some "qty"%string) /\
    ParamDef.Value_index v = 1%nat /\
    ~ List.In (ParamDef.held v) ParamDef.spec_alternatives /\
    length (@ParamDef.spec_alternatives) = 7%nat.
Proof.
  eexists. split; [reflexivity|]. split; [reflexivity|]. split; [|reflexivity].
  cbn. intuition discriminate.
Qed.

(** ** Callbacks *)

Section AlgoFacts.
Context {exception : Type}.

End AlgoFacts.


(** ** AlgoManager: subscription counts *)

Section AlgoManagerFacts.
Context `{Externals}.

Lemma at_key_value (m : gmap AlgoManager.Key Z) (k : AlgoManager.Key) :
  fst (AlgoManager.at_key m k) = AlgoManager.ref_count m k.
Proof.
  unfold AlgoManager.at_key, AlgoManager.ref_count.
  destruct (m !! k); reflexivity.
Qed.

Lemma at_key_ref_count (m : gmap AlgoManager.Key Z) (k k' : AlgoManager.Key) :
  AlgoManager.ref_count (snd (AlgoManager.at_key m k)) k' = AlgoManager.ref_count m k'.
Proof.
  unfold AlgoManager.at_key, AlgoManager.ref_count.
  destruct (m !! k) eqn:E; cbn [snd]; [reflexivity|].
  destruct (decide (k = k')) as [->|N].
  - rewrite lookup_insert_eq, E. reflexivity.
  - rewrite lookup_insert_ne by assumption. reflexivity.
Qed.

Lemma at_key_map (m : gmap AlgoManager.Key Z) (k : AlgoManager.Key) :
  snd (AlgoManager.at_key m k)
  = match m !! k with Some _ => m | None => <[k := 0]> m end.
Proof. unfold AlgoManager.at_key. destruct (m !! k); reflexivity. Qed.

Lemma IsSubscribed_unfold (am : AlgoManager.t) src id :
  AlgoManager.IsSubscribed am src id
  = (fst (AlgoManager.at_key (AlgoManager.md_refs_ am) (src, id)) >? 0,
     AlgoManager.with_md_refs am (snd (AlgoManager.at_key (AlgoManager.md_refs_ am) (src, id)))).
Proof.
  unfold AlgoManager.IsSubscribed.
  destruct (AlgoManager.at_key (AlgoManager.md_refs_ am) (src, id)); reflexivity.
Qed.

(** C3: [IsSubscribed(src, id)] returns true if and only if the count
    recorded for the pair [(src, id)] is strictly greater than zero, a pair
    with no recorded entry counting as zero. *)
Theorem IsSubscribed_iff_count_positive (am : AlgoManager.t) src id :
  fst (AlgoManager.IsSubscribed am src id) = true <->
  0 < AlgoManager.ref_count (AlgoManager.md_refs_ am) (src, id).
Proof.
  rewrite IsSubscribed_unfold. cbn [fst]. rewrite at_key_value.
  rewrite Z.gtb_ltb. apply Z.ltb_lt.
Qed.

(** C9: [IsSubscribed] leaves every subscription count unchanged, an absent
    entry counting as zero; the only change it can make to [md_refs_] is a
    fresh zero entry for a pair that had none, and it changes no other
    member. *)
Theorem IsSubscribed_preserves_counts (am : AlgoManager.t) src id :
  let am' := snd (AlgoManager.IsSubscribed am src id) in
  (forall k, AlgoManager.ref_count (AlgoManager.md_refs_ am') k
             = AlgoManager.ref_count (AlgoManager.md_refs_ am) k) /\
  AlgoManager.md_refs_ am'
    = match AlgoManager.md_refs_ am !! (src, id) with
      | Some _ => AlgoManager.md_refs_ am
      | None => <[(src, id) := 0]> (AlgoManager.md_refs_ am)
      end /\
  AlgoManager.algos_ am' = AlgoManager.algos_ am /\
  AlgoManager.algo_of_token_ am' = AlgoManager.algo_of_token_ am /\
  AlgoManager.algo_id_counter_ am' = AlgoManager.algo_id_counter_ am /\
  AlgoManager.seq_counter_ am' = AlgoManager.seq_counter_ am.
Proof.
  cbv zeta. rewrite IsSubscribed_unfold. cbn [snd AlgoManager.with_md_refs
    AlgoManager.md_refs_ AlgoManager.algos_ AlgoManager.algo_of_token_
    AlgoManager.algo_id_counter_ AlgoManager.seq_counter_].
  split; [intros k; apply at_key_ref_count|].
  split; [|repeat split].
  exact (at_key_map (AlgoManager.md_refs_ am) (src, id)).
Qed.
End AlgoManagerFacts.

(** On a manager that never saw the pair [(3, 7)], [IsSubscribed(3, 7)] is
    false and leaves a zero entry for the pair behind. *)
Example IsSubscribed_materializes_entry :
  let am : @AlgoManager.t numeric_externals := AlgoManager.init in
  let k : @AlgoManager.Key numeric_externals := (3, 7) in
  let r := AlgoManager.IsSubscribed am 3 7 in
  fst r = false /\
  AlgoManager.md_refs_ am !! k = None /\
  AlgoManager.md_refs_ (snd r) !! k = Some 0.
Proof. repeat split. Qed.

(** ** AlgoManager: counting subscribers *)

Section RefCountFacts.
Context `{Externals}.

















End RefCountFacts.

Section RefCountInvariant.
Context `{Externals}.










End RefCountInvariant.


Example md_refs_after_stop :
  let w := AlgoManager.run sample_ops (AlgoManager.spawned [1; 2]) in
  AlgoManager.ref_count (AlgoManager.md_refs_ (AlgoManager.manager w)) pair_0_7 = 1 /\
  AlgoManager.ref_count (AlgoManager.md_refs_ (AlgoManager.manager w)) pair_0_8 = 0 /\
  AlgoManager.subscribers_added [1; 2] pair_0_7 sample_ops = 2 /\
  AlgoManager.subscribers_removed [1; 2] pair_0_7 sample_ops = 1 /\
  AlgoManager.live w pair_0_7 = 1 /\
  fst (AlgoManager.IsSubscribed (AlgoManager.manager w) 0 7) = true /\
  fst (AlgoManager.IsSubscribed (AlgoManager.manager w) 0 8) = false.
Proof. vm_compute. repeat split. Qed.


(** ** Further facts on sums and differences of doubles *)

Lemma ale_nonneg_any u V : ale u V -> nonneg V.
Proof.
  unfold ale, nonneg, SFleb.
  destruct u as [su|su| |su mu eu], V as [sV|sV| |sV mV eV];
    cbn; try discriminate; try reflexivity; destruct sV; try discriminate; reflexivity.
Qed.

Lemma SFleb_abs_nonneg x V : nonneg x -> SFleb (SFabs x) V = SFleb x V.
Proof.
  unfold nonneg, SFleb.
  destruct x as [s|s| |s m e]; cbn; try discriminate; try reflexivity;
    destruct s; try discriminate; reflexivity.
Qed.

Lemma SFleb_nz_l u V : SFleb (nz u) V = SFleb u V.
Proof. unfold SFleb. destruct u, V; reflexivity. Qed.

Lemma nonneg_le_inf u : nonneg u -> SFleb u (S754_infinity false) = true.
Proof.
  unfold nonneg, SFleb.
  destruct u as [s|s| |s m e]; cbn; try discriminate; try reflexivity;
    destruct s; try discriminate; reflexivity.
Qed.

(** The sum of two non-negative floats is non-negative, and never NaN. *)
Lemma add_nonneg x y :
  valid_binary x = true -> valid_binary y = true ->
  nonneg x -> nonneg y -> nonneg (SFadd prec emax x y).
Proof.
  intros Vx Vy Nx Ny.
  destruct (nonneg_cases x Nx) as [Fx | ->].
  - destruct (nonneg_cases y Ny) as [Fy | ->].
    + destruct (dominate_fin x y x y) as [Hadd _]; try assumption;
        try (apply ale_refl_nonneg; assumption).
      exact (ale_nonneg_any _ _ Hadd).
    + rewrite SFadd_inf_r by assumption. reflexivity.
  - rewrite SFadd_inf_l by assumption. reflexivity.
Qed.

(** Addition of non-negative floats is monotone in both operands. *)
Lemma add_mono x y X Y :
  valid_binary x = true -> valid_binary y = true ->
  valid_binary X = true -> valid_binary Y = true ->
  nonneg x -> nonneg y -> SFleb x X = true -> SFleb y Y = true ->
  SFleb (SFadd prec emax x y) (SFadd prec emax X Y) = true.
Proof.
  intros Vx Vy VX VY Nx Ny Hx Hy.
  assert (Ax : ale x X) by (unfold ale; rewrite SFleb_abs_nonneg; assumption).
  assert (Ay : ale y Y) by (unfold ale; rewrite SFleb_abs_nonneg; assumption).
  pose proof (ale_nonneg_any _ _ Ax) as NX. pose proof (ale_nonneg_any _ _ Ay) as NY.
  pose proof (add_nonneg x y Vx Vy Nx Ny) as Nxy.
  destruct (nonneg_cases X NX) as [FX | ->].
  - destruct (nonneg_cases Y NY) as [FY | ->].
    + destruct (dominate_fin x y X Y) as [Hadd _]; try assumption;
        try (eapply ale_fin; eassumption).
      unfold ale in Hadd. rewrite SFleb_abs_nonneg in Hadd; assumption.
    + rewrite SFadd_inf_r by assumption. apply nonneg_le_inf, Nxy.
  - rewrite SFadd_inf_l by assumption. apply nonneg_le_inf, Nxy.
Qed.

Lemma SFadd_zero_r x :
  nonneg x -> nz (SFadd prec emax x (S754_zero false)) = nz x.
Proof.
  unfold nonneg, SFleb. destruct x as [s|s| |s m e]; cbn; try discriminate; try reflexivity.
  destruct s; reflexivity.
Qed.

Lemma SFadd_zero_l y :
  nonneg y -> nz (SFadd prec emax (S754_zero false) y) = nz y.
Proof.
  unfold nonneg, SFleb. destruct y as [s|s| |s m e]; cbn; try discriminate; try reflexivity.
  destruct s; reflexivity.
Qed.

(** A non-negative float is at most its sum with a non-negative float. *)
Lemma add_ge_l x y :
  valid_binary x = true -> valid_binary y = true ->
  nonneg x -> nonneg y -> SFleb x (SFadd prec emax x y) = true.
Proof.
  intros Vx Vy Nx Ny.
  rewrite <- SFleb_nz_l, <- (SFadd_zero_r x Nx), SFleb_nz_l.
  apply add_mono; try assumption; try reflexivity.
  unfold ale in *. pose proof (ale_refl_nonneg x) as H.
  destruct (nonneg_cases x Nx) as [Fx | ->]; [|reflexivity].
  specialize (H Fx Nx). unfold ale in H. rewrite SFleb_abs_nonneg in H; assumption.
Qed.

Lemma add_ge_r x y :
  valid_binary x = true -> valid_binary y = true ->
  nonneg x -> nonneg y -> SFleb y (SFadd prec emax x y) = true.
Proof.
  intros Vx Vy Nx Ny.
  rewrite <- SFleb_nz_l, <- (SFadd_zero_l y Ny), SFleb_nz_l.
  apply add_mono; try assumption; try reflexivity.
  pose proof (ale_refl_nonneg y) as H.
  destruct (nonneg_cases y Ny) as [Fy | ->]; [|reflexivity].
  specialize (H Fy Ny). unfold ale in H. rewrite SFleb_abs_nonneg in H; assumption.
Qed.

(** Addition of floats is commutative. *)
Lemma SFadd_comm x y : SFadd prec emax x y = SFadd prec emax y x.
Proof.
  destruct x as [sx|sx| |sx mx ex], y as [sy|sy| |sy my ey]; try reflexivity;
    try (destruct sx, sy; reflexivity).
  cbn [SFadd]. rewrite (Z.min_comm ey ex). f_equal. apply Z.add_comm.
Qed.

Lemma SFeqb_refl x : x <> S754_nan -> SFeqb x x = true.
Proof.
  unfold SFeqb. destruct x as [s|s| |s m e]; cbn; try reflexivity; try congruence.
  - destruct s; reflexivity.
  - intros _. destruct s; rewrite Z.compare_refl, Pos.compare_cont_refl; reflexivity.
Qed.

Lemma mk_float_opp s p : SFopp (mk_float s p) = mk_float (negb s) p.
Proof.
  unfold mk_float. destruct (fst p); [reflexivity | | reflexivity].
  destruct (snd p <=? emax - prec); reflexivity.
Qed.

Lemma mk_float_not_nan s p : 0 <= fst p -> mk_float s p <> S754_nan.
Proof.
  unfold mk_float. destruct (fst p); [discriminate | | lia].
  destruct (snd p <=? emax - prec); discriminate.
Qed.

(** Rounding commutes with negation, up to the sign of a zero. *)
Lemma normalize_opp a e sz :
  SFeqb (binary_normalize prec emax (- a) e sz)
        (SFopp (binary_normalize prec emax a e sz)) = true.
Proof.
  destruct (Z.lt_trichotomy a 0) as [Hn | [-> | Hp]].
  - rewrite (normalize_pos (- a)), (normalize_neg a) by lia.
    rewrite mk_float_opp. apply SFeqb_refl, mk_float_not_nan, rnd_core_nonneg.
  - destruct sz; reflexivity.
  - rewrite (normalize_neg (- a)), (normalize_pos a) by lia.
    rewrite mk_float_opp, Z.opp_involutive.
    apply SFeqb_refl, mk_float_not_nan, rnd_core_nonneg.
Qed.

(** [y - x] is the negation of [x - y], up to the sign of a zero. *)
Lemma SFsub_antisym x y :
  is_fin x = true -> is_fin y = true ->
  SFeqb (SFsub prec emax y x) (SFopp (SFsub prec emax x y)) = true.
Proof.
  intros Fx Fy.
  destruct x as [sx|sx| |sx mx ex]; try discriminate;
    destruct y as [sy|sy| |sy my ey]; try discriminate.
  - destruct sx, sy; reflexivity.
  - cbn [SFsub SFopp]. rewrite negb_involutive. apply SFeqb_refl. discriminate.
  - cbn [SFsub SFopp]. apply SFeqb_refl. discriminate.
  - cbn [SFsub]. rewrite (Z.min_comm ey ex).
    match goal with
    | |- SFeqb (binary_normalize _ _ (?b - ?a) _ _) _ = true =>
        replace (b - a) with (- (a - b)) by lia
    end.
    apply normalize_opp.
Qed.

(** ** Instrument: further properties of the derived quantities *)

Section InstrumentBounds.
Context `{Externals}.

Lemma nonnegative_spec (x : float) :
  Instrument.nonnegative x = true -> nonneg (Prim2SF x).
Proof.
  unfold Instrument.nonnegative, nonneg. rewrite leb_spec.
  change (Prim2SF 0) with (S754_zero false). trivial.
Qed.

Lemma isfinite_spec (x : float) : isfinite x = true <-> is_fin (Prim2SF x) = true.
Proof.
  unfold isfinite. rewrite ltb_spec, abs_spec.
  change (Prim2SF infinity) with (S754_infinity false).
  unfold SFltb. destruct (Prim2SF x) as [s|s| |s m e]; cbn; split; congruence.
Qed.

Lemma add_valid (x y : float) : valid_binary (SF64add (Prim2SF x) (Prim2SF y)) = true.
Proof. rewrite <- add_spec. apply Prim2SF_valid. Qed.

Lemma add_nonnegative (x y : float) :
  Instrument.nonnegative x = true -> Instrument.nonnegative y = true ->
  Instrument.nonnegative (x + y) = true.
Proof.
  intros Hx%nonnegative_spec Hy%nonnegative_spec.
  unfold Instrument.nonnegative. rewrite leb_spec, add_spec.
  change (Prim2SF 0) with (S754_zero false).
  apply add_nonneg; try apply Prim2SF_valid; assumption.
Qed.

Lemma add_monotone (x y x' y' : float) :
  Instrument.nonnegative x = true -> Instrument.nonnegative y = true ->
  (x <=? x')%float = true -> (y <=? y')%float = true ->
  (x + y <=? x' + y')%float = true.
Proof.
  intros Hx%nonnegative_spec Hy%nonnegative_spec Hxx Hyy.
  rewrite leb_spec in *. rewrite !add_spec.
  apply add_mono; try apply Prim2SF_valid; assumption.
Qed.

Lemma add_comm_double (x y : float) : (x + y)%float = (y + x)%float.
Proof. apply Prim2SF_inj. rewrite !add_spec. apply SFadd_comm. Qed.





Lemma eqb_refl_is_nan (x : float) : (x =? x)%float = negb (is_nan x).
Proof. unfold is_nan. rewrite negb_involutive. reflexivity. Qed.


(** X1: when the four stored quantities are non-negative (an infinity
    included), [total_qty()], [total_outstanding_qty()] and
    [total_exposure()] are non-negative; none of them is NaN. *)
Theorem total_exposure_nonnegative (i : Instrument.t) :
  Instrument.nonnegative (Instrument.bought_qty_ i) = true ->
  Instrument.nonnegative (Instrument.sold_qty_ i) = true ->
  Instrument.nonnegative (Instrument.outstanding_buy_qty_ i) = true ->
  Instrument.nonnegative (Instrument.outstanding_sell_qty_ i) = true ->
  Instrument.nonnegative (Instrument.total_qty i) = true /\
  Instrument.nonnegative (Instrument.total_outstanding_qty i) = true /\
  Instrument.nonnegative (Instrument.total_exposure i) = true.
Proof.
  intros Hb Hs Hob Hos.
  unfold Instrument.total_exposure, Instrument.total_qty, Instrument.total_outstanding_qty.
  repeat split; repeat apply add_nonnegative; assumption.
Qed.

(** X2: [total_exposure()] is monotone in the four stored quantities: when
    those of [i] are non-negative and each is at most the one of [j], then
    [total_qty()], [total_outstanding_qty()] and [total_exposure()] of [i]
    are at most those of [j]. *)
Theorem total_exposure_monotone (i j : Instrument.t) :
  Instrument.nonnegative (Instrument.bought_qty_ i) = true ->
  Instrument.nonnegative (Instrument.sold_qty_ i) = true ->
  Instrument.nonnegative (Instrument.outstanding_buy_qty_ i) = true ->
  Instrument.nonnegative (Instrument.outstanding_sell_qty_ i) = true ->
  (Instrument.bought_qty_ i <=? Instrument.bought_qty_ j)%float = true ->
  (Instrument.sold_qty_ i <=? Instrument.sold_qty_ j)%float = true ->
  (Instrument.outstanding_buy_qty_ i <=? Instrument.outstanding_buy_qty_ j)%float = true ->
  (Instrument.outstanding_sell_qty_ i <=? Instrument.outstanding_sell_qty_ j)%float = true ->
  (Instrument.total_qty i <=? Instrument.total_qty j)%float = true /\
  (Instrument.total_outstanding_qty i <=? Instrument.total_outstanding_qty j)%float = true /\
  (Instrument.total_exposure i <=? Instrument.total_exposure j)%float = true.
Proof.
  intros Hb Hs Hob Hos Lb Ls Lob Los.
  unfold Instrument.total_exposure, Instrument.total_qty, Instrument.total_outstanding_qty.
  assert (L1 := add_monotone _ _ _ _ Hb Hs Lb Ls).
  assert (L2 := add_monotone _ _ _ _ Hob Hos Lob Los).
  repeat split; try assumption.
  apply add_monotone; try assumption; apply add_nonnegative; assumption.
Qed.

(** X3: when the four stored quantities are non-negative,
    [total_exposure()] is at least [total_qty()] and at least
    [total_outstanding_qty()], and [total_qty()] is at least [bought_qty_] and
    at least [sold_qty_]. *)
Theorem total_exposure_covers_parts (i : Instrument.t) :
  Instrument.nonnegative (Instrument.bought_qty_ i) = true ->
  Instrument.nonnegative (Instrument.sold_qty_ i) = true ->
  Instrument.nonnegative (Instrument.outstanding_buy_qty_ i) = true ->
  Instrument.nonnegative (Instrument.outstanding_sell_qty_ i) = true ->
  (Instrument.total_qty i <=? Instrument.total_exposure i)%float = true /\
  (Instrument.total_outstanding_qty i <=? Instrument.total_exposure i)%float = true /\
  (Instrument.bought_qty_ i <=? Instrument.total_qty i)%float = true /\
  (Instrument.sold_qty_ i <=? Instrument.total_qty i)%float = true.
Proof.
  intros Hb Hs Hob Hos.
  pose proof (add_nonnegative _ _ Hb Hs) as Ht%nonnegative_spec.
  pose proof (add_nonnegative _ _ Hob Hos) as Ho%nonnegative_spec.
  apply nonnegative_spec in Hb, Hs, Hob, Hos.
  unfold Instrument.total_exposure, Instrument.total_qty, Instrument.total_outstanding_qty.
  rewrite !leb_spec, !add_spec. rewrite add_spec in Ht, Ho.
  repeat split.
  - apply add_ge_l; try apply add_valid; assumption.
  - apply add_ge_r; try apply add_valid; assumption.
  - apply add_ge_l; try apply Prim2SF_valid; assumption.
  - apply add_ge_r; try apply Prim2SF_valid; assumption.
Qed.

(** X4: when [bought_qty_] and [sold_qty_] are finite and non-negative,
    [net_qty()] is finite (the subtraction neither overflows nor yields NaN)
    and its absolute value is at most [total_qty()]; the same holds of
    [net_outstanding_qty()] and [total_outstanding_qty()]. *)
Theorem net_qty_within_total_qty (i : Instrument.t) :
  Instrument.finite_nonneg (Instrument.bought_qty_ i) = true ->
  Instrument.finite_nonneg (Instrument.sold_qty_ i) = true ->
  Instrument.finite_nonneg (Instrument.outstanding_buy_qty_ i) = true ->
  Instrument.finite_nonneg (Instrument.outstanding_sell_qty_ i) = true ->
  isfinite (Instrument.net_qty i) = true /\
  (abs (Instrument.net_qty i) <=? Instrument.total_qty i)%float = true /\
  isfinite (Instrument.net_outstanding_qty i) = true /\
  (abs (Instrument.net_outstanding_qty i) <=? Instrument.total_outstanding_qty i)%float = true.
Proof.
  intros [Fb Nb]%finite_nonneg_spec [Fs Ns]%finite_nonneg_spec
         [Fob Nob]%finite_nonneg_spec [Fos Nos]%finite_nonneg_spec.
  unfold Instrument.net_qty, Instrument.total_qty, Instrument.net_outstanding_qty,
    Instrument.total_outstanding_qty.
  rewrite !isfinite_spec, !leb_spec, !abs_spec, !add_spec, !sub_spec.
  pose proof Prim2SF_valid as V.
  destruct (dominate _ _ _ _ Fb Fs (V _) (V _) (V _) (V _)
              (ale_refl_nonneg _ Fb Nb) (ale_refl_nonneg _ Fs Ns)) as [_ H1].
  destruct (dominate _ _ _ _ Fob Fos (V _) (V _) (V _) (V _)
              (ale_refl_nonneg _ Fob Nob) (ale_refl_nonneg _ Fos Nos)) as [_ H2].
  repeat split; try assumption; apply sub_is_fin; try assumption; apply V.
Qed.

(** X5: exchanging the buy and the sell side of an instrument leaves
    [total_qty()], [total_outstanding_qty()] and [total_exposure()] unchanged
    under [==], whatever the four doubles are: each total of the exchanged
    instrument is NaN exactly when the one of the original is, and compares
    equal to it otherwise. *)
Theorem totals_side_symmetric (i j : Instrument.t) :
  Instrument.bought_qty_ j = Instrument.sold_qty_ i ->
  Instrument.sold_qty_ j = Instrument.bought_qty_ i ->
  Instrument.outstanding_buy_qty_ j = Instrument.outstanding_sell_qty_ i ->
  Instrument.outstanding_sell_qty_ j = Instrument.outstanding_buy_qty_ i ->
  ((Instrument.total_qty j =? Instrument.total_qty i)
   = negb (is_nan (Instrument.total_qty i)) /\
   is_nan (Instrument.total_qty j) = is_nan (Instrument.total_qty i) /\
   (Instrument.total_outstanding_qty j =? Instrument.total_outstanding_qty i)
   = negb (is_nan (Instrument.total_outstanding_qty i)) /\
   is_nan (Instrument.total_outstanding_qty j)
   = is_nan (Instrument.total_outstanding_qty i) /\
   (Instrument.total_exposure j =? Instrument.total_exposure i)
   = negb (is_nan (Instrument.total_exposure i)) /\
   is_nan (Instrument.total_exposure j) = is_nan (Instrument.total_exposure i))%float.
Proof.
  intros Hb Hs Hob Hos.
  unfold Instrument.total_exposure, Instrument.total_qty, Instrument.total_outstanding_qty.
  rewrite Hb, Hs, Hob, Hos.
  rewrite (add_comm_double (Instrument.sold_qty_ i)),
          (add_comm_double (Instrument.outstanding_sell_qty_ i)).
  repeat split; apply eqb_refl_is_nan.
Qed.

(** X6: exchanging the buy and the sell side of an instrument whose four
    quantities are finite negates [net_qty()] and [net_outstanding_qty()]:
    the new values compare equal ([==]) to the negated old ones. *)
Theorem net_qty_side_antisymmetric (i j : Instrument.t) :
  isfinite (Instrument.bought_qty_ i) = true ->
  isfinite (Instrument.sold_qty_ i) = true ->
  isfinite (Instrument.outstanding_buy_qty_ i) = true ->
  isfinite (Instrument.outstanding_sell_qty_ i) = true ->
  Instrument.bought_qty_ j = Instrument.sold_qty_ i ->
  Instrument.sold_qty_ j = Instrument.bought_qty_ i ->
  Instrument.outstanding_buy_qty_ j = Instrument.outstanding_sell_qty_ i ->
  Instrument.outstanding_sell_qty_ j = Instrument.outstanding_buy_qty_ i ->
  (Instrument.net_qty j =? - Instrument.net_qty i)%float = true /\
  (Instrument.net_outstanding_qty j =? - Instrument.net_outstanding_qty i)%float = true.
Proof.
  intros Fb%isfinite_spec Fs%isfinite_spec Fob%isfinite_spec Fos%isfinite_spec Hb Hs Hob Hos.
  unfold Instrument.net_qty, Instrument.net_outstanding_qty.
  rewrite Hb, Hs, Hob, Hos, !FloatAxioms.eqb_spec, !opp_spec, !sub_spec.
  split; apply SFsub_antisym; assumption.
Qed.
End InstrumentBounds.

Lemma total_exposure_nonnegative_witness :
  Instrument.nonnegative (Instrument.total_qty filled_position) = true /\
  Instrument.nonnegative (Instrument.total_outstanding_qty filled_position) = true /\
  Instrument.nonnegative (Instrument.total_exposure filled_position) = true.
Proof.
  apply (@total_exposure_nonnegative numeric_externals filled_position); reflexivity.
Defined.

Lemma total_exposure_monotone_witness :
  (Instrument.total_qty filled_position <=? Instrument.total_qty larger_position)%float = true /\
  (Instrument.total_outstanding_qty filled_position
     <=? Instrument.total_outstanding_qty larger_position)%float = true /\
  (Instrument.total_exposure filled_position
     <=? Instrument.total_exposure larger_position)%float = true.
Proof.
  apply (@total_exposure_monotone numeric_externals filled_position larger_position);
    reflexivity.
Defined.

Lemma total_exposure_covers_parts_witness :
  (Instrument.total_qty filled_position <=? Instrument.total_exposure filled_position)%float = true /\
  (Instrument.total_outstanding_qty filled_position
     <=? Instrument.total_exposure filled_position)%float = true /\
  (Instrument.bought_qty_ filled_position <=? Instrument.total_qty filled_position)%float = true /\
  (Instrument.sold_qty_ filled_position <=? Instrument.total_qty filled_position)%float = true.
Proof.
  apply (@total_exposure_covers_parts numeric_externals filled_position); reflexivity.
Defined.

Lemma net_qty_within_total_qty_witness :
  isfinite (Instrument.net_qty filled_position) = true /\
  (abs (Instrument.net_qty filled_position) <=? Instrument.total_qty filled_position)%float = true /\
  isfinite (Instrument.net_outstanding_qty filled_position) = true /\
  (abs (Instrument.net_outstanding_qty filled_position)
     <=? Instrument.total_outstanding_qty filled_position)%float = true.
Proof.
  apply (@net_qty_within_total_qty numeric_externals filled_position); reflexivity.
Defined.

Lemma totals_side_symmetric_witness :
  ((Instrument.total_qty mirrored_position =? Instrument.total_qty filled_position)
   = negb (is_nan (Instrument.total_qty filled_position)) /\
   is_nan (Instrument.total_qty mirrored_position)
   = is_nan (Instrument.total_qty filled_position) /\
   (Instrument.total_outstanding_qty mirrored_position
      =? Instrument.total_outstanding_qty filled_position)
   = negb (is_nan (Instrument.total_outstanding_qty filled_position)) /\
   is_nan (Instrument.total_outstanding_qty mirrored_position)
   = is_nan (Instrument.total_outstanding_qty filled_position) /\
   (Instrument.total_exposure mirrored_position =? Instrument.total_exposure filled_position)
   = negb (is_nan (Instrument.total_exposure filled_position)) /\
   is_nan (Instrument.total_exposure mirrored_position)
   = is_nan (Instrument.total_exposure filled_position))%float.
Proof.
  apply (@totals_side_symmetric numeric_externals filled_position mirrored_position);
    reflexivity.
Defined.



Lemma net_qty_side_antisymmetric_witness :
  (Instrument.net_qty mirrored_position =? - Instrument.net_qty filled_position)%float = true /\
  (Instrument.net_outstanding_qty mirrored_position
     =? - Instrument.net_outstanding_qty filled_position)%float = true.
Proof.
  apply (@net_qty_side_antisymmetric numeric_externals filled_position mirrored_position);
    reflexivity.
Defined.

(** The sums of two instruments at the largest finite double overflow to
    [+infinity]; the net position stays 0. *)
Example total_qty_overflows :
  let big := 0x1.fffffffffffffp+1023%float in
  let i := @Instrument.mk numeric_externals None 0 None 0 ∅ big big 0%float 0%float 0 in
  Instrument.total_qty i = infinity /\
  Instrument.total_exposure i = infinity /\
  Instrument.net_qty i = 0%float.
Proof. repeat split. Qed.

(** ** IsSubscribed: repeated and interleaved queries *)

Section IsSubscribedQueries.
Context `{Externals}.

Lemma at_key_lookup (m : gmap AlgoManager.Key Z) (k k' : AlgoManager.Key) :
  snd (AlgoManager.at_key m k) !! k'
  = if decide (k = k') then Some (AlgoManager.ref_count m k) else m !! k'.
Proof.
  unfold AlgoManager.at_key, AlgoManager.ref_count.
  destruct (m !! k) eqn:E; cbn [snd]; destruct (decide (k = k')) as [<-|N].
  - rewrite E. reflexivity.
  - reflexivity.
  - rewrite lookup_insert_eq. reflexivity.
  - rewrite lookup_insert_ne by assumption. reflexivity.
Qed.

Lemma at_key_again (m : gmap AlgoManager.Key Z) (k : AlgoManager.Key) :
  AlgoManager.at_key (snd (AlgoManager.at_key m k)) k
  = (fst (AlgoManager.at_key m k), snd (AlgoManager.at_key m k)).
Proof.
  unfold AlgoManager.at_key at 1. rewrite at_key_lookup, decide_True by reflexivity.
  rewrite at_key_value. reflexivity.
Qed.

Lemma at_key_commute (m : gmap AlgoManager.Key Z) (k1 k2 : AlgoManager.Key) :
  snd (AlgoManager.at_key (snd (AlgoManager.at_key m k1)) k2)
  = snd (AlgoManager.at_key (snd (AlgoManager.at_key m k2)) k1).
Proof.
  apply map_eq. intros k'. rewrite !at_key_lookup, !at_key_ref_count.
  destruct (decide (k2 = k')) as [E2|N2], (decide (k1 = k')) as [E1|N1];
    try reflexivity. congruence.
Qed.

(** X7: a second [IsSubscribed] call on the same pair returns what the first
    returned and leaves the manager as the first call left it: after one
    call the pair has an entry, and a query reads it without changing
    anything. *)
Theorem IsSubscribed_idempotent (am : AlgoManager.t) src id :
  let first := AlgoManager.IsSubscribed am src id in
  let second := AlgoManager.IsSubscribed (snd first) src id in
  fst second = fst first /\
  snd second = snd first /\
  is_Some (AlgoManager.md_refs_ (snd first) !! (src, id)).
Proof.
  cbv zeta. rewrite !IsSubscribed_unfold.
  cbn [fst snd AlgoManager.with_md_refs AlgoManager.md_refs_].
  rewrite at_key_again. cbn [fst snd]. repeat split.
  pose proof (at_key_lookup (AlgoManager.md_refs_ am) (src, id) (src, id)) as Hl.
  rewrite decide_True in Hl by reflexivity. eexists. exact Hl.
Qed.

(** X8: two [IsSubscribed] queries commute: the manager they leave is the
    same in either order, and the answer to each is the answer it gets when
    asked first. *)
Theorem IsSubscribed_commute (am : AlgoManager.t) src1 id1 src2 id2 :
  let am1 := snd (AlgoManager.IsSubscribed am src1 id1) in
  let am2 := snd (AlgoManager.IsSubscribed am src2 id2) in
  snd (AlgoManager.IsSubscribed am1 src2 id2) = snd (AlgoManager.IsSubscribed am2 src1 id1) /\
  fst (AlgoManager.IsSubscribed am1 src2 id2) = fst (AlgoManager.IsSubscribed am src2 id2) /\
  fst (AlgoManager.IsSubscribed am2 src1 id1) = fst (AlgoManager.IsSubscribed am src1 id1).
Proof.
  cbv zeta. rewrite !IsSubscribed_unfold.
  cbn [fst snd AlgoManager.with_md_refs AlgoManager.md_refs_].
  rewrite !at_key_value, !at_key_ref_count.
  split; [|split; reflexivity].
  unfold AlgoManager.with_md_refs.
  cbn [AlgoManager.algo_id_counter_ AlgoManager.algos_ AlgoManager.algo_of_token_
       AlgoManager.seq_counter_].
  f_equal. apply at_key_commute.
Qed.

(** X9: an [IsSubscribed] query never removes or changes an entry of
    [md_refs_]; it adds the queried pair to the pairs that have an entry, so
    the table grows by one entry when the pair had none and keeps its size
    otherwise. *)
Theorem IsSubscribed_grows_table (am : AlgoManager.t) src id :
  let k : AlgoManager.Key := (src, id) in
  let m := AlgoManager.md_refs_ am in
  let m' := AlgoManager.md_refs_ (snd (AlgoManager.IsSubscribed am src id)) in
  dom m' = {[ k ]} ∪ dom m /\
  (forall k' v, m !! k' = Some v -> m' !! k' = Some v) /\
  size m' = (if m !! k is Some _ then size m else S (size m)).
Proof.
  intros k m. cbv zeta. rewrite IsSubscribed_unfold.
  cbn [snd AlgoManager.with_md_refs AlgoManager.md_refs_]. fold m. fold k.
  split; [|split].
  - rewrite at_key_map. destruct (m !! k) eqn:E.
    + apply elem_of_dom_2 in E. symmetry. apply subseteq_union_1_L.
      apply singleton_subseteq_l. exact E.
    + apply dom_insert_L.
  - intros k' v Hk. rewrite at_key_lookup. destruct (decide (k = k')) as [<-|N].
    + unfold AlgoManager.ref_count. rewrite Hk. reflexivity.
    + exact Hk.
  - rewrite at_key_map. destruct (m !! k) eqn:E.
    + reflexivity.
    + apply map_size_insert_None, E.
Qed.
End IsSubscribedQueries.
